(** * Vanilla ES / NS-ES emitter with a passive novelty archive

    A shallow embedding of [src/training/vanilla_es_emitter.py]:
    the [NoveltyArchive] circular buffer with its k-nearest-neighbour
    novelty score, and the [VanillaESEmitter] (mirrored sampling, rank
    normalisation, gradient estimate, state machine).

    Numbers.  Array entries are modelled by [float]: a rational extended
    with the two infinities and not-a-number, with the IEEE rules for
    these special values.  Finite arithmetic is exact (no rounding, no
    signed zero, no overflow); the square root is a parameter [sqrtQ] of
    the development.  A statement whose conclusion would be changed by an
    overflow of the arrays' format carries the hypothesis [in_range] on
    the quantity that is computed.

    Arrays.  A two-dimensional array (the archive, a batch of
    descriptors) is a list of rows.  An array of arbitrary rank (a leaf of
    a genotype) is an [ndarray]: a shape and the entries in row-major
    order, which is the order [reshape] and [ravel] preserve.  A pytree is
    represented by the list of its leaves in [tree_leaves] order;
    [tree_map] is [map] (or [map2]) over that list. *)

From Stdlib Require Import List ZArith QArith Lia Lqa Bool Arith Permutation Sorted.
Import ListNotations.

Set Implicit Arguments.

(* ================================================================== *)
(** ** Extended rationals standing for floating-point values *)

Inductive float : Type :=
| Fin (q : Q)
| PInf
| NInf
| NaN.

Declare Scope float_scope.
Delimit Scope float_scope with float.
Bind Scope float_scope with float.

(** Sign of a value: [Gt] positive, [Lt] negative, [Eq] zero or NaN. *)
Definition fsign (x : float) : comparison :=
  match x with
  | Fin q => (q ?= 0)%Q
  | PInf => Gt
  | NInf => Lt
  | NaN => Eq
  end.

Definition sign_mul (c1 c2 : comparison) : comparison :=
  match c1, c2 with
  | Eq, _ | _, Eq => Eq
  | Gt, Gt | Lt, Lt => Gt
  | _, _ => Lt
  end.

(** The infinity of a given sign; a zero sign gives NaN (0 * inf, 0 / 0). *)
Definition inf_of (c : comparison) : float :=
  match c with
  | Gt => PInf
  | Lt => NInf
  | Eq => NaN
  end.

Definition fneg (x : float) : float :=
  match x with
  | Fin q => Fin (- q)
  | PInf => NInf
  | NInf => PInf
  | NaN => NaN
  end.

Definition fadd (x y : float) : float :=
  match x, y with
  | NaN, _ | _, NaN => NaN
  | Fin a, Fin b => Fin (a + b)
  | PInf, NInf | NInf, PInf => NaN
  | PInf, _ | _, PInf => PInf
  | NInf, _ | _, NInf => NInf
  end.

Definition fsub (x y : float) : float := fadd x (fneg y).

Definition fmul (x y : float) : float :=
  match x, y with
  | NaN, _ | _, NaN => NaN
  | Fin a, Fin b => Fin (a * b)
  | _, _ => inf_of (sign_mul (fsign x) (fsign y))
  end.

Definition fdiv (x y : float) : float :=
  match x, y with
  | NaN, _ | _, NaN => NaN
  | Fin a, Fin b => if Qeq_bool b 0 then inf_of (a ?= 0)%Q else Fin (a / b)
  | Fin _, _ => Fin 0
  | _, Fin b => inf_of (sign_mul (fsign x) (if Qeq_bool b 0 then Gt else (b ?= 0)%Q))
  | _, _ => NaN
  end.

(** [x == y] and [x < y] of IEEE: false as soon as one side is NaN. *)
Definition feqb (x y : float) : bool :=
  match x, y with
  | Fin a, Fin b => Qeq_bool a b
  | PInf, PInf | NInf, NInf => true
  | _, _ => false
  end.

Definition fltb (x y : float) : bool :=
  match x, y with
  | NaN, _ | _, NaN => false
  | Fin a, Fin b => negb (Qle_bool b a)
  | NInf, NInf | PInf, _ => false
  | NInf, _ => true
  | Fin _, PInf => true
  | Fin _, NInf => false
  end.

Definition fleb (x y : float) : bool := fltb x y || feqb x y.

Definition isnan (x : float) : bool :=
  match x with NaN => true | _ => false end.

Definition isfinite (x : float) : bool :=
  match x with Fin _ => true | _ => false end.

(** The order used by sorting primitives: the IEEE order, with NaN after
    every number. *)
Definition sort_ltb (x y : float) : bool :=
  match x, y with
  | NaN, _ => false
  | _, NaN => true
  | _, _ => fltb x y
  end.

Definition of_Z (z : Z) : float := Fin (inject_Z z).
Definition of_nat (n : nat) : float := of_Z (Z.of_nat n).

Definition fzero : float := Fin 0.
Definition fhalf : float := Fin (1 # 2).

(** The largest finite value of the arrays' format, float32:
    [(2^24 - 1) * 2^104]. *)
Definition float_max : Q := inject_Z (16777215 * 2 ^ 104).

(** A value computed without overflow: a number within the finite range
    of the format. *)
Definition in_range (x : float) : Prop :=
  exists q, x = Fin q /\ - float_max <= q <= float_max.

Infix "+" := fadd : float_scope.
Infix "-" := fsub : float_scope.
Infix "*" := fmul : float_scope.
Infix "/" := fdiv : float_scope.
Notation "- x" := (fneg x) : float_scope.

(** Sum of a one-dimensional array, accumulated from zero in index order. *)
Definition fsum (l : list float) : float := fold_left fadd l fzero.

(* ================================================================== *)
(** ** Small list utilities shared by the array operations *)

(** [tree_map] over two pytrees of the same structure. *)
Fixpoint map2 {A B C : Type} (f : A -> B -> C) (l : list A) (l' : list B) : list C :=
  match l, l' with
  | a :: t, b :: t' => f a b :: map2 f t t'
  | _, _ => []
  end.

Definition prod_list (l : list nat) : nat := fold_right Nat.mul 1%nat l.

(* ================================================================== *)
(** ** Sorting primitives: [jnp.argsort] and [jax.lax.top_k] *)

(** Insertion of [x] in a list sorted by the strict order [lt]: [x]
    passes the elements strictly before it and stops at the first other
    one, so that among equal keys the element inserted last comes first. *)
Fixpoint insert_sorted {A : Type} (lt : A -> A -> bool) (x : A) (l : list A)
  : list A :=
  match l with
  | [] => [x]
  | y :: t => if lt y x then y :: insert_sorted lt x t else x :: y :: t
  end.

(** Stable sort: the elements are inserted from the last to the first, so
    that equal keys keep the order of the input. *)
Definition stable_sort {A : Type} (lt : A -> A -> bool) (l : list A) : list A :=
  fold_right (insert_sorted lt) [] l.

(** Each entry paired with its index. *)
Definition enumerate {A : Type} (l : list A) : list (A * nat) :=
  combine l (seq 0 (length l)).

Definition by_key {A : Type} (lt : A -> A -> bool) (p q : A * nat) : bool :=
  lt (fst p) (fst q).

(** The stable ascending order on entries paired with their index: the
    smaller key first, the lower index first among equal keys. *)
Definition precedes {A : Type} (lt : A -> A -> bool) (p q : A * nat) : bool :=
  lt (fst p) (fst q) || (negb (lt (fst q) (fst p)) && (snd p <? snd q)%nat).

(** The 0-indexed rank of entry [i] under a stable ascending sort: the
    number of entries that come before it. *)
Definition stable_rank {A : Type} (lt : A -> A -> bool) (d : A) (a : list A)
    (i : nat) : nat :=
  length (filter (fun j => precedes lt (nth j a d, j) (nth i a d, i))
                 (seq 0 (length a))).

(** [jnp.argsort(a)]: the indices that sort [a] in ascending order, stably. *)
Definition argsort {A : Type} (lt : A -> A -> bool) (a : list A) : list nat :=
  map snd (stable_sort (by_key lt) (enumerate a)).

(** [jax.lax.top_k(operand, k)]: the [k] largest entries in descending
    order with their indices, the lower index first among equal entries;
    rejected when [k] exceeds the length of the operand. *)
Definition top_k (operand : list float) (k : nat)
  : option (list float * list nat) :=
  if (k <=? length operand)%nat then
    let sorted :=
      stable_sort (by_key (fun x y => sort_ltb y x)) (enumerate operand) in
    Some (map fst (firstn k sorted), map snd (firstn k sorted))
  else None.

(** [jnp.where(cond, x, y)] with a scalar [y]. *)
Definition where_ (cond : list bool) (x : list float) (y : float) : list float :=
  map2 (fun (c : bool) v => if c then v else y) cond x.

(** [jnp.nansum] and [jnp.nanmean] of a one-dimensional array. *)
Definition nansum (a : list float) : float :=
  fsum (map (fun v => if isnan v then fzero else v) a).

Definition nanmean (a : list float) : float :=
  (nansum a / of_nat (length (filter (fun v => negb (isnan v)) a)))%float.

(** A value as [novelty] averages it: an infinity of the mask is turned
    into NaN. *)
Definition unmask (d : float) : float := if feqb d PInf then NaN else d.

(** A distance that is a number or the infinity of the mask. *)
Definition distance_like (v : float) : Prop :=
  v = PInf \/ exists q, v = Fin q.

(** A row of numbers: no infinity, no NaN. *)
Definition finite_row (r : list float) : Prop :=
  Forall (fun v => exists q, v = Fin q) r.

(** [sequence]: all the results, or [None] as soon as one is rejected. *)
Fixpoint sequence {A : Type} (l : list (option A)) : option (list A) :=
  match l with
  | [] => Some []
  | None :: _ => None
  | Some a :: t =>
      match sequence t with
      | Some r => Some (a :: r)
      | None => None
      end
  end.

(* ================================================================== *)
(** ** NoveltyArchive *)

Definition Row : Type := list float.
(** A batch of descriptors: a two-dimensional array, one descriptor per row. *)
Definition Descriptor : Type := list Row.
Definition Fitness : Type := list float.

Module NoveltyArchive.

Record t : Type := mk {
  archive : list Row;
  size : nat;
  position : Z
}.

(** [jnp.zeros((size, num_descriptors))] and a cursor at 0. *)
Definition init (size num_descriptors : nat) : t :=
  {| archive := repeat (repeat fzero num_descriptors) size;
     size := size;
     position := 0%Z |}.

(** Width of a two-dimensional array (0 when it has no row). *)
Definition width (a : list Row) : nat := length (hd [] a).

(** Writing an update row over the leading entries of an operand row:
    the update begins at column 0 and may be narrower than the operand. *)
Definition overwrite_row (old new : Row) : Row :=
  new ++ skipn (length new) old.

(** The start index of a dynamic slice is clamped so that the slice fits. *)
Definition clamp_start (start : Z) (operand_rows update_rows : nat) : nat :=
  Z.to_nat (Z.max 0 (Z.min start (Z.of_nat operand_rows - Z.of_nat update_rows))).

(** [jax.lax.dynamic_update_slice_in_dim(operand, update, start, axis=0)]
    on two-dimensional arrays.  It is rejected ([None]) when the update
    does not fit in the operand along some axis. *)
Definition dynamic_update_slice_in_dim
    (operand update : list Row) (start : Z) : option (list Row) :=
  if (length update <=? length operand)%nat
     && forallb (fun u => (length u <=? width operand)%nat) update
  then
    let s := clamp_start start (length operand) (length update) in
    Some (firstn s operand
          ++ map2 overwrite_row (firstn (length update) (skipn s operand)) update
          ++ skipn (s + length update) operand)
  else None.

(** [NoveltyArchive.update]: the cursor advances by one, modulo [size]. *)
Definition update (self : t) (descriptor : Descriptor) : option t :=
  match dynamic_update_slice_in_dim (archive self) descriptor (position self) with
  | Some new_archive =>
      let new_position := ((position self + 1) mod Z.of_nat (size self))%Z in
      Some {| archive := new_archive;
              size := size self;
              position := new_position |}
  | None => None
  end.

(** Successive calls of [update], one single-row descriptor per call. *)
Fixpoint update_each (self : t) (ds : list Row) : option t :=
  match ds with
  | [] => Some self
  | d :: rest =>
      match update self [d] with
      | Some a => update_each a rest
      | None => None
      end
  end.

Section Novelty.

(** The square root on non-negative rationals. *)
Variable sqrtQ : Q -> Q.

Definition fsqrt (x : float) : float :=
  match x with
  | Fin q => if Qle_bool 0 q then Fin (sqrtQ q) else NaN
  | PInf => PInf
  | NInf | NaN => NaN
  end.

Definition square (x : float) : float := (x * x)%float.

(** [jnp.sqrt(jnp.sum(jnp.square(x - y)))] *)
Definition distance (x y : Row) : float :=
  fsqrt (fsum (map square (map2 fsub x y))).

(** [jnp.arange(0, size) < position + 1] *)
Definition valid_slots (self : t) : list bool :=
  map (fun i => (Z.of_nat i <? position self + 1)%Z) (seq 0 (size self)).

(** [NoveltyArchive.novelty(descriptors, num_nearest_neighbors)] *)
Definition novelty (self : t) (descriptors : Descriptor)
    (num_nearest_neighbors : nat) : option (list float) :=
  (* Compute all distances with archive content *)
  let distances :=
    map (fun x => map (fun y => distance x y) (archive self)) descriptors in
  (* Filter distance with empty slot of archive *)
  let indices := valid_slots self in
  let distances := map (fun d => where_ indices d PInf) distances in
  (* Find k nearest neighbours *)
  match sequence (map (fun d => top_k (map fneg d) num_nearest_neighbors)
                      distances) with
  | None => None
  | Some tops =>
      let indices := map snd tops in
      (* Compute novelty as average distance with k nearest neighbours *)
      let distances :=
        map (map (fun d => if feqb d PInf then NaN else d)) distances in
      let taken :=
        map2 (fun d idx => map (fun i => nth i d NaN) idx) distances indices in
      Some (map nanmean taken)
  end.

(** *** The novelty score as the specification words it *)

(** Distance from a query to slot [i]: the Euclidean norm when the slot
    is admitted by the mask, infinity otherwise. *)
Definition masked_distance (self : t) (x : Row) (i : nat) : float :=
  if (Z.of_nat i <? position self + 1)%Z
  then distance x (nth i (archive self) [])
  else PInf.

(** The [k] smallest entries, in ascending order. *)
Definition k_smallest (k : nat) (l : list float) : list float :=
  firstn k (stable_sort sort_ltb l).

(** Mean of the finite entries. *)
Definition mean_of_finite (l : list float) : float :=
  (fsum (filter isfinite l) / of_nat (length (filter isfinite l)))%float.

Definition novelty_spec (self : t) (descriptors : Descriptor) (k : nat)
  : list float :=
  map (fun x =>
         mean_of_finite
           (k_smallest k (map (masked_distance self x) (seq 0 (size self)))))
      descriptors.

End Novelty.

End NoveltyArchive.

(* ================================================================== *)
(** ** Arrays of arbitrary rank *)

Record ndarray : Type := mk_ndarray {
  shape : list nat;
  data : list float
}.

(** A pytree of arrays, as the list of its leaves. *)
Definition Genotype : Type := list ndarray.

(** Number of entries of one slice along the leading axis:
    [x[0].ravel().shape[0]]. *)
Definition row_size (x : ndarray) : nat := prod_list (tl (shape x)).

Definition leading_dim (x : ndarray) : nat := hd 0%nat (shape x).

(** The first [count] consecutive blocks of [width] entries. *)
Fixpoint chunks {A : Type} (count width : nat) (l : list A) : list (list A) :=
  match count with
  | O => []
  | S c => firstn width l :: chunks c width (skipn width l)
  end.

(** The slices of an array along its leading axis, each one flattened. *)
Definition rows (x : ndarray) : list (list float) :=
  chunks (leading_dim x) (row_size x) (data x).

(** [jnp.reshape(x, new_shape)]: the entries keep their row-major order. *)
Definition reshape (x : ndarray) (new_shape : list nat) : ndarray :=
  {| shape := new_shape; data := data x |}.

(** [jnp.repeat(x, n, axis=0)]: each slice is repeated [n] times in place. *)
Definition repeat_axis0 (x : ndarray) (n : nat) : ndarray :=
  {| shape := (leading_dim x * n)%nat :: tl (shape x);
     data := concat (flat_map (fun r => repeat r n) (rows x)) |}.

(** [jnp.expand_dims(x, axis=1)] *)
Definition expand_dims1 (x : ndarray) : ndarray :=
  {| shape := match shape x with
              | h :: r => h :: 1%nat :: r
              | [] => []
              end;
     data := data x |}.

(** [jnp.concatenate([a, b], axis=1)]: slice by slice along the leading
    axis, the entries of [a] then those of [b]. *)
Definition concatenate1 (a b : ndarray) : ndarray :=
  {| shape := match shape a, shape b with
              | h :: a1 :: r, _ :: b1 :: _ => h :: (a1 + b1)%nat :: r
              | _, _ => shape a
              end;
     data := concat (map2 (@app float) (rows a) (rows b)) |}.

(** Elementwise operations, on arrays of the same shape. *)
Definition map_array (f : float -> float) (x : ndarray) : ndarray :=
  {| shape := shape x; data := map f (data x) |}.

Definition zip_array (f : float -> float -> float) (x y : ndarray) : ndarray :=
  {| shape := shape x; data := map2 f (data x) (data y) |}.

(** [jnp.sum(g, axis=0)] of a two-dimensional array: the rows are added
    one after the other to a row of zeros. *)
Definition sum_axis0 (g : ndarray) : list float :=
  fold_left (map2 fadd) (rows g) (repeat fzero (row_size g)).

(** [x[0]]: the first slice, without the leading axis. *)
Definition index0 (x : ndarray) : option ndarray :=
  match shape x with
  | S _ :: r => Some {| shape := r; data := firstn (prod_list r) (data x) |}
  | _ => None
  end.

(** The first slice of an array along its leading axis, that axis dropped. *)
Definition first_slice (x : ndarray) : ndarray :=
  {| shape := tl (shape x); data := firstn (row_size x) (data x) |}.

(* ================================================================== *)
(** ** Failures *)

Inductive error : Type :=
| InvalidBatchSize (inputed : nat)   (* the assertion of [state_update] *)
| IndexError                         (* no leaf, or no axis to index *)
| ShapeError.                        (* an array primitive rejects its operands *)

Inductive result (A : Type) : Type :=
| Ok (a : A)
| Err (e : error).
Arguments Ok {A} a.
Arguments Err {A} e.

Definition bind {A B : Type} (r : result A) (k : A -> result B) : result B :=
  match r with
  | Ok a => k a
  | Err e => Err e
  end.

Notation "x <- r ;; k" := (bind r (fun x => k))
  (at level 61, r at next level, right associativity).
Notation "' p <- r ;; k" := (bind r (fun p => k))
  (at level 61, p pattern, r at next level, right associativity).

Definition of_option {A : Type} (e : error) (o : option A) : result A :=
  match o with
  | Some a => Ok a
  | None => Err e
  end.

(* ================================================================== *)
(** ** VanillaESConfig, VanillaESEmitterState, VanillaESEmitter *)

Record VanillaESConfig : Type := mkVanillaESConfig {
  nses_emitter : bool;
  sample_number : nat;
  sample_sigma : float;
  sample_mirror : bool;
  sample_rank_norm : bool;
  adam_optimizer : bool;
  learning_rate : float;
  l2_coefficient : float;
  novelty_nearest_neighbors : nat
}.

Module VanillaESEmitter.

Section Emitter.

(** The collaborators of the emitter: random keys and their primitives,
    the optimizer, the scoring function and the repertoire. *)
Variable RNGKey : Type.
Variable OptState : Type.
Variable ExtraScores : Type.
Variable MapElitesRepertoire : Type.

(** [jax.random.split(key)] *)
Variable random_split : RNGKey -> RNGKey * RNGKey.
(** Entry [i], in row-major order, of [jax.random.normal(key, shape)]. *)
Variable normal_entry : RNGKey -> list nat -> nat -> Q.
Variable sqrtQ : Q -> Q.

Record GradientTransformation : Type := mkGradientTransformation {
  opt_init : Genotype -> OptState;
  opt_update : Genotype -> OptState -> Genotype * OptState
}.

(** [optax.adam(learning_rate)] and [optax.sgd(learning_rate)] *)
Variable adam : float -> GradientTransformation.
Variable sgd : float -> GradientTransformation.

Record VanillaESEmitterState : Type := mkVanillaESEmitterState {
  optimizer_state : OptState;
  offspring : Genotype;
  generation_count : Z;
  novelty_archive : NoveltyArchive.t;
  random_key : RNGKey
}.

Definition ScoringFn : Type :=
  Genotype -> RNGKey -> Fitness * Descriptor * ExtraScores * RNGKey.

Record Emitter : Type := mkEmitter {
  _config : VanillaESConfig;
  _scoring_fn : ScoringFn;
  _total_generations : nat;
  _num_descriptors : nat;
  _optimizer : GradientTransformation
}.

(** [VanillaESEmitter.__init__] *)
Definition __init__ (config : VanillaESConfig) (scoring_fn : ScoringFn)
    (total_generations num_descriptors : nat) : Emitter :=
  {| _config := config;
     _scoring_fn := scoring_fn;
     _total_generations := total_generations;
     _num_descriptors := num_descriptors;
     _optimizer := if adam_optimizer config
                   then adam (learning_rate config)
                   else sgd (learning_rate config) |}.

Definition batch_size (self : Emitter) : nat := 1.

(** [jax.random.normal(key, shape)] *)
Definition random_normal (key : RNGKey) (shp : list nat) : ndarray :=
  {| shape := shp;
     data := map (fun i => Fin (normal_entry key shp i))
                 (seq 0 (prod_list shp)) |}.

(** [optax.apply_updates(params, updates)] *)
Definition apply_updates (params updates : Genotype) : Genotype :=
  map2 (zip_array fadd) params updates.

(** [jax.tree_util.tree_leaves(genotypes)[0].shape[0]] *)
Definition first_leaf_batch (genotypes : Genotype) : result nat :=
  match genotypes with
  | [] => Err IndexError
  | x :: _ =>
      match shape x with
      | [] => Err IndexError
      | n :: _ => Ok n
      end
  end.

(** [VanillaESEmitter.init] *)
Definition init (self : Emitter) (init_genotypes : Genotype)
    (random_key : RNGKey) : result (VanillaESEmitterState * RNGKey) :=
  n <- first_leaf_batch init_genotypes ;;
  (* Initialisation requires one initial genotype *)
  init_genotypes <-
    (if (1 <? n)%nat
     then of_option IndexError (sequence (map index0 init_genotypes))
     else Ok init_genotypes) ;;
  (* Initialise optimizer *)
  let initial_optimizer_state := opt_init (_optimizer self) init_genotypes in
  (* Create empty Novelty archive *)
  let novelty_archive :=
    NoveltyArchive.init (_total_generations self) (_num_descriptors self) in
  Ok ({| optimizer_state := initial_optimizer_state;
         offspring := init_genotypes;
         generation_count := 0;
         novelty_archive := novelty_archive;
         random_key := random_key |},
      random_key).

(** [VanillaESEmitter.emit] *)
Definition emit (self : Emitter) (repertoire : MapElitesRepertoire)
    (emitter_state : VanillaESEmitterState) (random_key : RNGKey)
  : Genotype * RNGKey :=
  (offspring emitter_state, random_key).

(** *** The steps of [_es_emitter] *)

Definition total_sample_number (self : Emitter) : nat :=
  sample_number (_config self).

(** Mirrored perturbations: [+noise] and [-noise] interleaved. *)
Definition mirror (x : ndarray) : ndarray :=
  reshape (concatenate1 (expand_dims1 x) (expand_dims1 (map_array fneg x)))
          (shape (repeat_axis0 x 2)).

(** Sampling noise: the pair [(sample_noise, gradient_noise)]. *)
Definition sample_noises (self : Emitter) (parent : Genotype)
    (subkey : RNGKey) : Genotype * Genotype :=
  let total_sample_number := total_sample_number self in
  if sample_mirror (_config self) then
    let sample_number := (total_sample_number / 2)%nat in
    let half_sample_noise :=
      map (fun x => random_normal subkey (shape (repeat_axis0 x sample_number)))
          parent in
    let sample_noise := map mirror half_sample_noise in
    (sample_noise, half_sample_noise)
  else
    let sample_number := total_sample_number in
    let sample_noise :=
      map (fun x => random_normal subkey (shape (repeat_axis0 x sample_number)))
          parent in
    (sample_noise, sample_noise).

(** Applying noise. *)
Definition apply_noise (self : Emitter) (parent sample_noise : Genotype)
  : Genotype :=
  let samples :=
    map (fun x => repeat_axis0 x (total_sample_number self)) parent in
  map2 (zip_array (fun mean noise =>
                     (mean + sample_sigma (_config self) * noise)%float))
       samples sample_noise.

(** Computing rank, with or without normalisation. *)
Definition rank_transform (self : Emitter) (scores : list float) : list float :=
  if sample_rank_norm (_config self) then
    let ranking_indices := argsort sort_ltb scores in
    let ranks := argsort Nat.ltb ranking_indices in
    map (fun r => (of_nat r
                   / of_Z (Z.of_nat (total_sample_number self) - 1)
                   - fhalf)%float)
        ranks
  else scores.

(** The rank-weight as the specification words it: [rank/(N-1) - 0.5]. *)
Definition centered_rank (N rank : nat) : Q :=
  inject_Z (Z.of_nat rank) / inject_Z (Z.of_nat N - 1) - (1 # 2).

(** Under mirroring the ranks are reshaped in pairs and each pair is
    replaced by [rank[0] - rank[1]]. *)
Definition pair_ranks (self : Emitter) (sample_number : nat)
    (ranks : list float) : list float :=
  if sample_mirror (_config self) then
    map (fun rank => (nth 0 rank NaN - nth 1 rank NaN)%float)
        (chunks sample_number 2 ranks)
  else ranks.

(** Reshaping rank to match shape of genotype_noise. *)
Definition broadcast_ranks (ranks : list float) (x : ndarray) : ndarray :=
  {| shape := shape x;
     data := flat_map (fun r => repeat r (row_size x)) ranks |}.

(** Computing the gradients and adding regularisation, for one leaf. *)
Definition gradient_leaf (self : Emitter) (sample_number : nat)
    (noise rank p : ndarray) : ndarray :=
  let g := zip_array fmul noise rank in
  let g := reshape g [sample_number;
                      (length (data g) / sample_number)%nat] in
  let g :=
    reshape
      (mk_ndarray [row_size g]
         (map (fun s => (- s / (of_nat (total_sample_number self)
                                * sample_sigma (_config self)))%float)
              (sum_axis0 g)))
      (shape p) in
  zip_array (fun g p => (g + l2_coefficient (_config self) * p)%float) g p.

Definition es_gradient (self : Emitter) (sample_number : nat)
    (parent gradient_noise : Genotype) (ranks : list float) : Genotype :=
  let ranks := map (broadcast_ranks ranks) gradient_noise in
  map2 (fun nr p => gradient_leaf self sample_number (fst nr) (snd nr) p)
       (combine gradient_noise ranks) parent.

(** *** The gradient estimate as the specification words it *)

(** Number of rows of [gradient_noise] per parent row. *)
Definition effective_sample_number (self : Emitter) : nat :=
  if sample_mirror (_config self)
  then (total_sample_number self / 2)%nat
  else total_sample_number self.

(** Entry [j] of the estimate for one leaf: the rows of the gradient
    noise are multiplied by their rank-weight, summed over the sample
    axis, negated and divided by [sample_number * sample_sigma]; then
    [l2_coefficient * parent] is added. *)
Definition gradient_entry_spec (self : Emitter) (noise_rows : list (list float))
    (weights : list float) (p_j : float) (j : nat) : float :=
  let weighted :=
    map2 (fun row w => map (fun v => (v * w)%float) row) noise_rows weights in
  let total := fsum (map (fun row => nth j row fzero) weighted) in
  (- total / (of_nat (total_sample_number self) * sample_sigma (_config self))
   + l2_coefficient (_config self) * p_j)%float.

Definition gradient_leaf_spec (self : Emitter) (weights : list float)
    (noise p : ndarray) : ndarray :=
  {| shape := shape p;
     data := map (fun j => gradient_entry_spec self (rows noise) weights
                             (nth j (data p) fzero) j)
                 (seq 0 (length (data p))) |}.

(** [VanillaESEmitter._es_emitter] *)
Definition _es_emitter (self : Emitter) (parent : Genotype)
    (optimizer_state : OptState) (random_key : RNGKey)
    (scores_fn : Fitness -> Descriptor -> result (list float))
  : result (Genotype * OptState * RNGKey) :=
  let '(random_key, subkey) := random_split random_key in
  (* Sampling mirror or non-mirror noise *)
  let total_sample_number := total_sample_number self in
  let sample_number :=
    if sample_mirror (_config self)
    then (total_sample_number / 2)%nat else total_sample_number in
  let '(sample_noise, gradient_noise) := sample_noises self parent subkey in
  (* Applying noise *)
  let samples := apply_noise self parent sample_noise in
  (* Evaluating samples *)
  let '(fitnesses, descriptors, extra_scores, random_key) :=
    _scoring_fn self samples random_key in
  (* Computing rank, with or without normalisation *)
  scores <- scores_fn fitnesses descriptors ;;
  let ranks := rank_transform self scores in
  (* Reshaping rank to match shape of genotype_noise *)
  let ranks := pair_ranks self sample_number ranks in
  (* Computing the gradients, adding regularisation *)
  let gradient := es_gradient self sample_number parent gradient_noise ranks in
  (* Applying gradients *)
  let '(offspring_update, optimizer_state) :=
    opt_update (_optimizer self) gradient optimizer_state in
  let offspring := apply_updates parent offspring_update in
  Ok (offspring, optimizer_state, random_key).

(** [VanillaESEmitter.state_update] *)
Definition state_update (self : Emitter) (emitter_state : VanillaESEmitterState)
    (repertoire : MapElitesRepertoire) (genotypes : Genotype)
    (fitnesses : Fitness) (descriptors : Descriptor)
    (extra_scores : ExtraScores) : result VanillaESEmitterState :=
  n <- first_leaf_batch genotypes ;;
  if negb (n =? 1)%nat then Err (InvalidBatchSize n) else
  (* Updating novelty archive *)
  novelty_archive <-
    of_option ShapeError
      (NoveltyArchive.update (novelty_archive emitter_state) descriptors) ;;
  (* Define scores for es process *)
  let scores (fitnesses : Fitness) (descriptors : Descriptor) :=
    if nses_emitter (_config self) then
      of_option ShapeError
        (NoveltyArchive.novelty sqrtQ novelty_archive descriptors
           (novelty_nearest_neighbors (_config self)))
    else Ok fitnesses in
  (* Run es process *)
  '(offspring, optimizer_state, random_key) <-
    _es_emitter self genotypes (optimizer_state emitter_state)
      (random_key emitter_state) scores ;;
  Ok {| optimizer_state := optimizer_state;
        offspring := offspring;
        novelty_archive := novelty_archive;
        generation_count := generation_count emitter_state + 1;
        random_key := random_key |}.

End Emitter.

End VanillaESEmitter.

(** Sample values used to exercise the definitions. *)
Module Samples.
Import NoveltyArchive.
(** A stand-in for the square root, exact on the squares used below. *)
Definition sqrt_sample (q : Q) : Q :=
  inject_Z (Z.sqrt (Qnum q)) / inject_Z (Z.sqrt (Zpos (Qden q))).
Definition vec (l : list Z) : Row := map of_Z l.
Definition matrix (l : list (list Z)) : list Row := map vec l.

(** Collaborators: keys are numbers, the optimizer is a stateless
    gradient descent, the fitness is minus the squared norm and the
    descriptor is the candidate itself. *)
Definition split (k : nat) : nat * nat := (S k, (2 * k + 7)%nat).
Definition normal (k : nat) (shp : list nat) (i : nat) : Q :=
  inject_Z (Z.of_nat ((k + 3 * i) mod 5)) - 2.
Definition descent (lr : float) : VanillaESEmitter.GradientTransformation unit :=
  {| VanillaESEmitter.opt_init := fun _ => tt;
     VanillaESEmitter.opt_update :=
       fun g s => (map (map_array (fun x => (- (lr * x))%float)) g, s) |}.
Definition scoring (g : Genotype) (k : nat) : Fitness * Descriptor * unit * nat :=
  match g with
  | x :: _ =>
      (map (fun r => (- fsum (map (fun v => v * v) r))%float) (rows x),
       rows x, tt, S k)
  | [] => ([], [], tt, k)
  end.
Definition config : VanillaESConfig :=
  {| nses_emitter := false;
     sample_number := 4;
     sample_sigma := Fin (1 # 10);
     sample_mirror := true;
     sample_rank_norm := true;
     adam_optimizer := false;
     learning_rate := Fin (1 # 100);
     l2_coefficient := Fin (2 # 100);
     novelty_nearest_neighbors := 2 |}.
Definition emitter : VanillaESEmitter.Emitter nat unit unit :=
  VanillaESEmitter.__init__ descent descent config scoring 5 2.
(** A single sample per generation, without mirroring. *)
Definition config1 : VanillaESConfig :=
  {| nses_emitter := false;
     sample_number := 1;
     sample_sigma := Fin (1 # 10);
     sample_mirror := false;
     sample_rank_norm := true;
     adam_optimizer := false;
     learning_rate := Fin (1 # 100);
     l2_coefficient := Fin (2 # 100);
     novelty_nearest_neighbors := 2 |}.
Definition emitter1 : VanillaESEmitter.Emitter nat unit unit :=
  VanillaESEmitter.__init__ descent descent config1 scoring 5 2.
Definition noise : Genotype := [mk_ndarray [2; 2]%nat (vec [1; -1; 2; 0]%Z)].
Definition written : NoveltyArchive.t :=
  NoveltyArchive.mk (matrix [[3; 4]; [6; 8]; [0; 0]]%Z) 3 2.
Definition parent : Genotype := [mk_ndarray [1; 2]%nat (vec [0; 0]%Z)].
Definition batch : Genotype :=
  [mk_ndarray [2; 2]%nat (vec [0; 5; 1; 1]%Z);
   mk_ndarray [2; 1; 1]%nat (vec [7; 8]%Z)].
Definition state0 : VanillaESEmitter.VanillaESEmitterState nat unit :=
  {| VanillaESEmitter.optimizer_state := tt;
     VanillaESEmitter.offspring := parent;
     VanillaESEmitter.generation_count := 0;
     VanillaESEmitter.novelty_archive := NoveltyArchive.init 5 2;
     VanillaESEmitter.random_key := 3%nat |}.
End Samples.

(* ================================================================== *)
(** * Properties *)

(** ** Lists *)

Lemma map2_length {A B C : Type} (f : A -> B -> C) (l : list A) (l' : list B) :
  length (map2 f l l') = Nat.min (length l) (length l').
Proof.
  revert l'; induction l as [|a t IH]; intros [|b t']; simpl; auto.
Qed.

Lemma nth_map2 {A B C : Type} (f : A -> B -> C) (l : list A) (l' : list B)
    (i : nat) (da : A) (db : B) (dc : C) :
  (i < length l)%nat -> (i < length l')%nat ->
  nth i (map2 f l l') dc = f (nth i l da) (nth i l' db).
Proof.
  revert l' i; induction l as [|a t IH]; intros [|b t'] [|i]; simpl; intros;
    try lia; auto.
  apply IH; lia.
Qed.

Lemma map2_map_l {A A' B C : Type} (f : A' -> B -> C) (g : A -> A')
    (l : list A) (l' : list B) :
  map2 f (map g l) l' = map2 (fun a b => f (g a) b) l l'.
Proof.
  revert l'; induction l as [|a t IH]; intros [|b t']; simpl; f_equal; auto.
Qed.

Lemma map2_ext_in {A B C : Type} (f g : A -> B -> C) (l : list A) (l' : list B) :
  (forall a b, In a l -> In b l' -> f a b = g a b) ->
  map2 f l l' = map2 g l l'.
Proof.
  revert l'; induction l as [|a t IH]; intros [|b t'] H; simpl; auto.
  f_equal; [apply H; simpl; auto | apply IH; intros; apply H; simpl; auto].
Qed.

Lemma In_firstn {A : Type} (n : nat) (l : list A) (x : A) :
  In x (firstn n l) -> In x l.
Proof.
  intros H; rewrite <- (firstn_skipn n l); apply in_or_app; auto.
Qed.

Lemma In_skipn {A : Type} (n : nat) (l : list A) (x : A) :
  In x (skipn n l) -> In x l.
Proof.
  intros H; rewrite <- (firstn_skipn n l); apply in_or_app; auto.
Qed.

(** ** NoveltyArchive.update *)

Module ArchiveFacts.
Import NoveltyArchive.

Lemma overwrite_row_same_width (old new : Row) :
  length new = length old -> overwrite_row old new = new.
Proof.
  intros H; unfold overwrite_row.
  rewrite H, skipn_all, app_nil_r; reflexivity.
Qed.

Lemma width_of_uniform (w : nat) (a : list Row) :
  Forall (fun r => length r = w) a -> a <> [] -> width a = w.
Proof.
  destruct a as [|r a]; [congruence|].
  intros H _; inversion H; subst; reflexivity.
Qed.

Lemma clamp_start_spec (p : Z) (n r : nat) :
  (0 <= p)%Z -> (r <= n)%nat ->
  clamp_start p n r = Nat.min (Z.to_nat p) (n - r).
Proof.
  intros; unfold clamp_start; lia.
Qed.

(** The rows of the operand after a slice update that fits. *)
Lemma dynamic_update_slice_rows (w : nat) (operand update : list Row) (p : Z) :
  Forall (fun r => length r = w) operand ->
  Forall (fun r => length r = w) update ->
  (0 <= p)%Z ->
  (1 <= length update <= length operand)%nat ->
  exists out,
    dynamic_update_slice_in_dim operand update p = Some out /\
    length out = length operand /\
    Forall (fun r => length r = w) out /\
    forall i, (i < length operand)%nat ->
      nth i out [] =
        let start := Nat.min (Z.to_nat p) (length operand - length update) in
        if (start <=? i)%nat && (i <? start + length update)%nat
        then nth (i - start) update []
        else nth i operand [].
Proof.
  intros Hop Hup Hp Hlen.
  unfold dynamic_update_slice_in_dim.
  assert (Hw : width operand = w).
  { apply width_of_uniform; auto. destruct operand; simpl in *; [lia|congruence]. }
  assert (Hc1 : (length update <=? length operand)%nat = true)
    by (apply Nat.leb_le; lia).
  assert (Hc2 : forallb (fun u => (length u <=? width operand)%nat) update = true).
  { apply forallb_forall; intros u Hu. rewrite Forall_forall in Hup.
    rewrite (Hup u Hu), Hw. apply Nat.leb_refl. }
  rewrite Hc1, Hc2; simpl.
  rewrite clamp_start_spec by lia.
  set (s := Nat.min (Z.to_nat p) (length operand - length update)).
  assert (Hs : (s + length update <= length operand)%nat) by (unfold s; lia).
  set (mid := map2 overwrite_row (firstn (length update) (skipn s operand)) update).
  assert (Hmid : mid = update).
  { unfold mid. clear mid.
    assert (Hsl : Forall (fun r => length r = w)
                    (firstn (length update) (skipn s operand))).
    { rewrite Forall_forall in *; intros r Hr.
      apply Hop. eapply In_skipn with (n := s). eapply In_firstn; eauto. }
    assert (Hl : length (firstn (length update) (skipn s operand)) = length update).
    { rewrite length_firstn, length_skipn; lia. }
    revert Hsl Hl Hup. generalize (firstn (length update) (skipn s operand)).
    clear. induction update as [|u us IH]; intros [|o os] Ho Hl Hu; simpl in *;
      try lia; auto.
    inversion Ho; inversion Hu; subst.
    f_equal; [apply overwrite_row_same_width; congruence | apply IH; auto]. }
  rewrite Hmid.
  eexists; split; [reflexivity|]. split; [|split].
  - rewrite !length_app, length_firstn, length_skipn; lia.
  - rewrite !Forall_app; repeat split; auto.
    + rewrite Forall_forall in *; intros r Hr; apply Hop; eapply In_firstn; eauto.
    + rewrite Forall_forall in *; intros r Hr; apply Hop; eapply In_skipn; eauto.
  - intros i Hi; cbv zeta; fold s.
    destruct (Nat.leb_spec s i) as [Hsi|Hsi]; simpl.
    + rewrite app_nth2 by (rewrite length_firstn; lia).
      rewrite length_firstn, Nat.min_l by lia.
      destruct (Nat.ltb_spec i (s + length update)) as [Hiu|Hiu].
      * rewrite app_nth1 by lia; reflexivity.
      * rewrite app_nth2 by lia. rewrite nth_skipn. f_equal; lia.
    + rewrite app_nth1 by (rewrite length_firstn; lia).
      rewrite nth_firstn.
      destruct (Nat.ltb_spec i s); [reflexivity | lia].
Qed.

(** One call of [update] on a well-formed archive. *)
Lemma update_rows (w : nat) (self : t) (descriptor : Descriptor) :
  length (archive self) = size self ->
  (0 <= position self)%Z ->
  Forall (fun r => length r = w) (archive self) ->
  Forall (fun r => length r = w) descriptor ->
  (1 <= length descriptor <= size self)%nat ->
  exists new,
    update self descriptor = Some new /\
    size new = size self /\
    position new = ((position self + 1) mod Z.of_nat (size self))%Z /\
    length (archive new) = size self /\
    Forall (fun r => length r = w) (archive new) /\
    forall i, (i < size self)%nat ->
      nth i (archive new) [] =
        let start :=
          Nat.min (Z.to_nat (position self)) (size self - length descriptor) in
        if (start <=? i)%nat && (i <? start + length descriptor)%nat
        then nth (i - start) descriptor []
        else nth i (archive self) [].
Proof.
  intros Hlen Hp Ha Hd Hr.
  destruct (@dynamic_update_slice_rows w (archive self) descriptor (position self))
    as (out & Hout & Hlo & Hwo & Hnth); auto; try lia.
  unfold update; rewrite Hout.
  eexists; split; [reflexivity|]; simpl.
  repeat split; auto; try lia.
  intros i Hi. rewrite Hnth by lia. rewrite Hlen. reflexivity.
Qed.

Lemma update_each_snoc (ds : list Row) (d : Row) (self : t) :
  update_each self (ds ++ [d]) =
    match update_each self ds with
    | Some a => update a [d]
    | None => None
    end.
Proof.
  revert self; induction ds as [|x ds IH]; intros self; simpl.
  - destruct (update self [d]); reflexivity.
  - destruct (update self [x]); auto.
Qed.

Lemma mod_distinct_within_period (S j n : nat) :
  (j < n)%nat -> (n < j + S)%nat -> (j mod S <> n mod S)%nat.
Proof.
  intros Hjn HnS Heq.
  assert (HS : S <> 0%nat) by lia.
  pose proof (Nat.div_mod_eq j S) as Hj.
  pose proof (Nat.div_mod_eq n S) as Hn.
  assert (Hle : (j / S <= n / S)%nat) by (apply Nat.Div0.div_le_mono; lia).
  assert (Hd : (n - j = S * (n / S - j / S))%nat) by nia.
  destruct (n / S - j / S)%nat as [|q] eqn:Hq; nia.
Qed.

(** The archive after [n] single-row writes into a fresh archive: the
    cursor is [n mod size] and each of the last [size] descriptors sits
    in the slot of its rank modulo [size]. *)
Lemma update_each_init (S w : nat) (ds : list Row) :
  (1 <= S)%nat ->
  Forall (fun r => length r = w) ds ->
  exists a,
    update_each (init S w) ds = Some a /\
    size a = S /\
    length (archive a) = S /\
    Forall (fun r => length r = w) (archive a) /\
    position a = Z.of_nat (length ds mod S) /\
    forall j, (j < length ds)%nat -> (length ds - j <= S)%nat ->
      nth (j mod S) (archive a) [] = nth j ds [].
Proof.
  intros HS. induction ds as [|d ds IH] using rev_ind; intros Hw.
  - exists (init S w); simpl. repeat split; auto.
    + apply repeat_length.
    + apply Forall_forall; intros r Hr. apply repeat_spec in Hr; subst.
      apply repeat_length.
    + rewrite Nat.Div0.mod_0_l; reflexivity.
    + intros; lia.
  - apply Forall_app in Hw; destruct Hw as [Hw Hd].
    destruct (IH Hw) as (a & Ha & Hsz & Hlen & Hwa & Hpos & Hslots).
    rewrite update_each_snoc, Ha.
    assert (Hmod : (length ds mod S < S)%nat) by (apply Nat.mod_upper_bound; lia).
    destruct (@update_rows w a [d]) as (new & Hnew & Hsz' & Hpos' & Hlen' & Hwn & Hnth);
      auto; simpl; try lia.
    exists new. rewrite length_app; simpl.
    repeat split; auto; try lia.
    + rewrite Hpos', Hpos, Hsz.
      rewrite <- (Nat2Z.inj_add _ 1), <- Nat2Z.inj_mod.
      f_equal. rewrite Nat.Div0.add_mod_idemp_l. reflexivity.
    + intros j Hj Hlast.
      assert (HjS : (j mod S < S)%nat) by (apply Nat.mod_upper_bound; lia).
      rewrite Hnth by lia. cbv zeta. simpl length.
      rewrite Hpos, Nat2Z.id, Hsz, Nat.min_l by lia.
      destruct (Nat.eq_dec j (length ds)) as [->|Hne].
      * rewrite Nat.leb_refl. simpl.
        replace (length ds mod S <? length ds mod S + 1)%nat with true
          by (symmetry; apply Nat.ltb_lt; lia).
        rewrite Nat.sub_diag, app_nth2, Nat.sub_diag by lia. reflexivity.
      * assert (Hdist : (j mod S <> length ds mod S)%nat)
          by (apply mod_distinct_within_period; lia).
        replace ((length ds mod S <=? j mod S)%nat
                 && (j mod S <? length ds mod S + 1)%nat) with false.
        2:{ symmetry. apply andb_false_iff.
            destruct (Nat.leb_spec (length ds mod S) (j mod S)); auto.
            right. apply Nat.ltb_ge. lia. }
        rewrite app_nth1 by lia. apply Hslots; lia.
Qed.

End ArchiveFacts.

(** C3 (as amended).  On an archive whose cursor is in range, [update]
    with [r] rows ([1 <= r <= size]) of the archive's width succeeds
    whatever the slots held before; it writes the rows contiguously from
    slot [min position (size - r)], which is the cursor itself when
    [r = 1], and leaves the other slots as they were; the new cursor is
    [(position + 1) mod size], whatever [r] is. *)
Theorem update_writes_at_clamped_cursor_and_advances_by_one :
  forall (w : nat) (self : NoveltyArchive.t) (descriptor : Descriptor),
    length (NoveltyArchive.archive self) = NoveltyArchive.size self ->
    (0 <= NoveltyArchive.position self < Z.of_nat (NoveltyArchive.size self))%Z ->
    Forall (fun r => length r = w) (NoveltyArchive.archive self) ->
    Forall (fun r => length r = w) descriptor ->
    (1 <= length descriptor <= NoveltyArchive.size self)%nat ->
    exists new,
      NoveltyArchive.update self descriptor = Some new /\
      NoveltyArchive.size new = NoveltyArchive.size self /\
      NoveltyArchive.position new =
        ((NoveltyArchive.position self + 1)
           mod Z.of_nat (NoveltyArchive.size self))%Z /\
      let start :=
        Nat.min (Z.to_nat (NoveltyArchive.position self))
                (NoveltyArchive.size self - length descriptor) in
      (length descriptor = 1%nat ->
         start = Z.to_nat (NoveltyArchive.position self)) /\
      forall i, (i < NoveltyArchive.size self)%nat ->
        nth i (NoveltyArchive.archive new) [] =
          if (start <=? i)%nat && (i <? start + length descriptor)%nat
          then nth (i - start) descriptor []
          else nth i (NoveltyArchive.archive self) [].
Proof.
  intros w self descriptor Hlen Hp Ha Hd Hr.
  destruct (@ArchiveFacts.update_rows w self descriptor)
    as (new & Hnew & Hsz & Hpos & _ & _ & Hnth); auto; try lia.
  exists new. repeat split; auto.
  intros H1; lia.
Qed.

(** C3 at two rows: the cursor advances by one, not by the number of
    rows, and the rows do not wrap around the end of the archive. *)
Lemma update_two_rows_counterexample :
  (let self := NoveltyArchive.init 3 1 in
   let descriptor := Samples.matrix [[1]; [2]]%Z in
   exists new,
     NoveltyArchive.update self descriptor = Some new /\
     NoveltyArchive.position new <>
       ((NoveltyArchive.position self + Z.of_nat (length descriptor))
          mod Z.of_nat (NoveltyArchive.size self))%Z) /\
  (let self := NoveltyArchive.mk (Samples.matrix [[7]; [8]; [9]]%Z) 3 2 in
   let descriptor := Samples.matrix [[1]; [2]]%Z in
   exists new,
     NoveltyArchive.update self descriptor = Some new /\
     NoveltyArchive.archive new = Samples.matrix [[7]; [1]; [2]]%Z /\
     nth 0 (NoveltyArchive.archive new) [] <> nth 1 descriptor []).
Proof.
  split; eexists; (split; [reflexivity|]); simpl.
  - discriminate.
  - split; [reflexivity | discriminate].
Qed.

Lemma update_writes_at_clamped_cursor_and_advances_by_one_witness :
  exists new,
    NoveltyArchive.update (NoveltyArchive.init 3 1) (Samples.matrix [[1]; [2]]%Z)
      = Some new /\
    NoveltyArchive.position new = 1%Z /\
    nth 1 (NoveltyArchive.archive new) [] = [Fin 2].
Proof.
  destruct (@update_writes_at_clamped_cursor_and_advances_by_one 1
              (NoveltyArchive.init 3 1) (Samples.matrix [[1]; [2]]%Z))
    as (new & Hnew & _ & Hpos & _ & Hnth).
  - reflexivity.
  - simpl; lia.
  - repeat constructor.
  - repeat constructor.
  - simpl; lia.
  - exists new. split; [exact Hnew|]. split; [exact Hpos|].
    exact (Hnth 1%nat ltac:(simpl; lia)).
Defined.

(** C7 (as amended).  After [S + k] single-row writes into a fresh
    archive of size [S], with [1 <= k <= S], slots [0 .. k-1] hold the
    last [k] descriptors written, and the cursor is [k mod S]: it is [k]
    when [k < S] and 0 when [k = S]. *)
Theorem wraparound_keeps_last_writes :
  forall (S k w : nat) (ds : list Row),
    (1 <= k <= S)%nat ->
    length ds = (S + k)%nat ->
    Forall (fun r => length r = w) ds ->
    exists a,
      NoveltyArchive.update_each (NoveltyArchive.init S w) ds = Some a /\
      NoveltyArchive.position a = Z.of_nat (k mod S) /\
      (k < S -> NoveltyArchive.position a = Z.of_nat k)%nat /\
      (k = S -> NoveltyArchive.position a = 0%Z) /\
      forall i, (i < k)%nat ->
        nth i (NoveltyArchive.archive a) [] = nth (S + i) ds [].
Proof.
  intros S k w ds Hk Hlen Hw.
  destruct (@ArchiveFacts.update_each_init S w ds)
    as (a & Ha & _ & _ & _ & Hpos & Hslots); auto; try lia.
  assert (Hmod : ((S + k) mod S = k mod S)%nat).
  { rewrite Nat.add_comm.
    rewrite <- (Nat.mul_1_l S) at 1. apply Nat.Div0.mod_add. }
  exists a. rewrite Hlen, Hmod in Hpos.
  repeat split; auto.
  - intros Hlt. rewrite Hpos, Nat.mod_small by lia. reflexivity.
  - intros ->. rewrite Hpos, Nat.Div0.mod_same. reflexivity.
  - intros i Hi.
    rewrite <- (Hslots (S + i)%nat) by lia.
    f_equal. rewrite Nat.add_comm.
    rewrite <- (Nat.mul_1_l S) at 1.
    rewrite Nat.Div0.mod_add. symmetry; apply Nat.mod_small; lia.
Qed.

Lemma wraparound_keeps_last_writes_witness :
  exists a,
    NoveltyArchive.update_each (NoveltyArchive.init 2 1)
      (Samples.matrix [[1]; [2]; [3]]%Z) = Some a /\
    NoveltyArchive.position a = 1%Z /\
    nth 0 (NoveltyArchive.archive a) [] = [Fin 3].
Proof.
  destruct (@wraparound_keeps_last_writes 2 1 1 (Samples.matrix [[1]; [2]; [3]]%Z))
    as (a & Ha & Hpos & _ & _ & Hslots).
  - lia.
  - reflexivity.
  - repeat constructor.
  - exists a. split; [exact Ha|]. split; [exact Hpos|].
    exact (Hslots 0%nat ltac:(lia)).
Defined.

(** C7 at [k = S]: the cursor has wrapped to 0 and is not [k]. *)
Lemma wraparound_full_turn_counterexample :
  let S := 2%nat in
  let k := 2%nat in
  (1 <= k <= S)%nat /\
  exists a,
    NoveltyArchive.update_each (NoveltyArchive.init S 1)
      (Samples.matrix [[1]; [2]; [3]; [4]]%Z) = Some a /\
    NoveltyArchive.archive a = Samples.matrix [[3]; [4]]%Z /\
    NoveltyArchive.position a <> Z.of_nat k.
Proof.
  split; [lia|]. eexists; split; [reflexivity|].
  split; [reflexivity | discriminate].
Qed.

(* ================================================================== *)
(** ** VanillaESEmitter: init, emit, state_update *)

Section EmitterFacts.

Variables RNGKey OptState ExtraScores MapElitesRepertoire : Type.
Variable random_split : RNGKey -> RNGKey * RNGKey.
Variable normal_entry : RNGKey -> list nat -> nat -> Q.
Variable sqrtQ : Q -> Q.

Local Abbreviation Emitter := (VanillaESEmitter.Emitter RNGKey OptState ExtraScores).
Local Abbreviation State := (VanillaESEmitter.VanillaESEmitterState RNGKey OptState).

Lemma sequence_map_index0 (g : Genotype) :
  Forall (fun x => (1 <= leading_dim x)%nat) g ->
  sequence (map index0 g) = Some (map first_slice g).
Proof.
  induction g as [|x g IH]; intros H; [reflexivity|].
  inversion H as [|? ? Hx Hg]; subst. simpl.
  rewrite (IH Hg).
  unfold index0, first_slice, row_size, leading_dim in *.
  destruct (shape x) as [|[|n] r]; simpl in *; try lia. reflexivity.
Qed.

(** C9.  [emit] returns the offspring of the state and the key it was
    given; neither depends on the repertoire, and two calls on one
    state return the same offspring. *)
Theorem emit_returns_offspring_and_key :
  forall (self : Emitter) (repertoire : MapElitesRepertoire)
         (emitter_state : State) (random_key : RNGKey),
    VanillaESEmitter.emit self repertoire emitter_state random_key
      = (VanillaESEmitter.offspring emitter_state, random_key) /\
    forall (repertoire' : MapElitesRepertoire) (random_key' : RNGKey),
      fst (VanillaESEmitter.emit self repertoire' emitter_state random_key')
        = fst (VanillaESEmitter.emit self repertoire emitter_state random_key).
Proof.
  intros; split; reflexivity.
Qed.

(** C10.  [init] on a batch whose first leaf has leading dimension
    [n]: when [n > 1] every leaf is replaced by its first slice, the
    leading axis dropped; when [n = 1] the genotypes are kept as they
    are.  What is stored as offspring is also what the optimizer state
    is initialised against. *)
Theorem init_keeps_or_slices_batch :
  forall (self : Emitter) (init_genotypes : Genotype) (random_key : RNGKey)
         (n : nat),
    VanillaESEmitter.first_leaf_batch init_genotypes = Ok n ->
    let stored (g : Genotype) : State :=
      {| VanillaESEmitter.optimizer_state :=
           VanillaESEmitter.opt_init (VanillaESEmitter._optimizer self) g;
         VanillaESEmitter.offspring := g;
         VanillaESEmitter.generation_count := 0;
         VanillaESEmitter.novelty_archive :=
           NoveltyArchive.init (VanillaESEmitter._total_generations self)
                               (VanillaESEmitter._num_descriptors self);
         VanillaESEmitter.random_key := random_key |} in
    ((1 < n)%nat ->
     Forall (fun x => (1 <= leading_dim x)%nat) init_genotypes ->
     VanillaESEmitter.init self init_genotypes random_key
       = Ok (stored (map first_slice init_genotypes), random_key) /\
     Forall (fun x => length (shape (first_slice x)) = pred (length (shape x)))
            init_genotypes) /\
    (n = 1%nat ->
     VanillaESEmitter.init self init_genotypes random_key
       = Ok (stored init_genotypes, random_key)).
Proof.
  intros self g key n Hn stored. unfold VanillaESEmitter.init.
  rewrite Hn; simpl. split.
  - intros Hgt Hlead.
    assert (Hb : (1 <? n)%nat = true) by (apply Nat.ltb_lt; lia).
    rewrite Hb, (sequence_map_index0 Hlead). simpl. split; [reflexivity|].
    apply Forall_forall; intros x _. unfold first_slice; simpl.
    destruct (shape x); reflexivity.
  - intros ->. reflexivity.
Qed.

(** C6.  [state_update] checks the leading dimension [n] of the first
    leaf of the evaluated genotypes before anything else: when [n] is
    not 1 the call fails with [InvalidBatchSize], and when it is 1 the
    call is the archive update followed by the ES step.  A call never
    returns a state unless [n = 1]. *)
Theorem state_update_requires_batch_of_one :
  forall (self : Emitter) (emitter_state : State)
         (repertoire : MapElitesRepertoire) (genotypes : Genotype)
         (fitnesses : Fitness) (descriptors : Descriptor)
         (extra_scores : ExtraScores) (n : nat),
    VanillaESEmitter.first_leaf_batch genotypes = Ok n ->
    let run :=
      VanillaESEmitter.state_update random_split normal_entry sqrtQ self
        emitter_state repertoire genotypes fitnesses descriptors extra_scores in
    (n <> 1%nat -> run = Err (InvalidBatchSize n)) /\
    (n = 1%nat ->
     run =
       (novelty_archive <-
          of_option ShapeError
            (NoveltyArchive.update
               (VanillaESEmitter.novelty_archive emitter_state) descriptors) ;;
        ' (offspring, optimizer_state, random_key) <-
          VanillaESEmitter._es_emitter random_split normal_entry self genotypes
            (VanillaESEmitter.optimizer_state emitter_state)
            (VanillaESEmitter.random_key emitter_state)
            (fun fitnesses descriptors =>
               if nses_emitter (VanillaESEmitter._config self)
               then of_option ShapeError
                      (NoveltyArchive.novelty sqrtQ novelty_archive descriptors
                         (novelty_nearest_neighbors
                            (VanillaESEmitter._config self)))
               else Ok fitnesses) ;;
        Ok {| VanillaESEmitter.optimizer_state := optimizer_state;
              VanillaESEmitter.offspring := offspring;
              VanillaESEmitter.novelty_archive := novelty_archive;
              VanillaESEmitter.generation_count :=
                VanillaESEmitter.generation_count emitter_state + 1;
              VanillaESEmitter.random_key := random_key |})) /\
    (forall new_state, run = Ok new_state -> n = 1%nat).
Proof.
  intros self st rep g fit desc extra n Hn run.
  unfold run, VanillaESEmitter.state_update. rewrite Hn; simpl.
  destruct (Nat.eqb_spec n 1) as [->|Hne]; simpl.
  - repeat split; auto. intros; congruence.
  - repeat split; auto; intros; congruence.
Qed.

End EmitterFacts.

(* ================================================================== *)
(** ** Rows of arrays *)

Lemma chunks_length {A : Type} (c w : nat) (l : list A) :
  length (chunks c w l) = c.
Proof.
  revert l; induction c as [|c IH]; intros l; simpl; auto.
Qed.

Lemma chunks_map {A B : Type} (f : A -> B) (c w : nat) (l : list A) :
  chunks c w (map f l) = map (map f) (chunks c w l).
Proof.
  revert l; induction c as [|c IH]; intros l; simpl; auto.
  rewrite firstn_map, skipn_map, IH; reflexivity.
Qed.

Lemma chunks_widths {A : Type} (c w : nat) (l : list A) :
  (c * w <= length l)%nat ->
  Forall (fun r => length r = w) (chunks c w l).
Proof.
  revert l; induction c as [|c IH]; intros l H; simpl; constructor.
  - rewrite length_firstn; lia.
  - apply IH. rewrite length_skipn; lia.
Qed.

Lemma chunks_concat {A : Type} (w : nat) (ls : list (list A)) :
  Forall (fun r => length r = w) ls ->
  chunks (length ls) w (concat ls) = ls.
Proof.
  induction ls as [|r ls IH]; intros H; simpl; auto.
  inversion H as [|? ? Hr Hls]; subst.
  rewrite firstn_app, Nat.sub_diag, firstn_all, firstn_O, app_nil_r.
  rewrite skipn_app, Nat.sub_diag, skipn_all, skipn_O. simpl.
  rewrite IH; auto.
Qed.

Lemma nth_chunks {A : Type} (c w i : nat) (l : list A) :
  (i < c)%nat ->
  nth i (chunks c w l) [] = firstn w (skipn (i * w) l).
Proof.
  revert i l; induction c as [|c IH]; intros [|i] l H; simpl; try lia; auto.
  rewrite IH by lia. rewrite skipn_skipn. do 2 f_equal. lia.
Qed.

Lemma map2_app_map {A : Type} (g : list A -> list A) (ls : list (list A)) :
  map2 (@app A) ls (map g ls) = map (fun r => r ++ g r) ls.
Proof.
  induction ls as [|r ls IH]; simpl; f_equal; auto.
Qed.

Lemma concat_interleave {A : Type} (g : list A -> list A) (ls : list (list A)) :
  concat (map (fun r => r ++ g r) ls) = concat (flat_map (fun r => [r; g r]) ls).
Proof.
  induction ls as [|r ls IH]; simpl; auto.
  rewrite <- app_assoc, IH; reflexivity.
Qed.

Lemma interleave_length {A : Type} (g : A -> A) (l : list A) :
  length (flat_map (fun r => [r; g r]) l) = (length l * 2)%nat.
Proof.
  induction l as [|r l IH]; simpl; auto.
Qed.

Lemma nth_interleave {A : Type} (g : A -> A) (l : list A) (i : nat) (d : A) :
  (i < length l)%nat ->
  nth (2 * i) (flat_map (fun r => [r; g r]) l) d = nth i l d /\
  nth (2 * i + 1) (flat_map (fun r => [r; g r]) l) d = g (nth i l d).
Proof.
  revert i; induction l as [|r l IH]; intros [|i] H; simpl in *; try lia; auto.
  replace (i + S (i + 0))%nat with (S (2 * i)) by lia.
  replace (S (2 * i) + 1)%nat with (S (2 * i + 1)) by lia.
  simpl. apply IH; lia.
Qed.

(** The slices of a mirrored array: each slice of the operand followed by
    its negation. *)
Lemma mirror_rows (x : ndarray) (h : nat) (r : list nat) :
  shape x = h :: r ->
  length (data x) = (h * prod_list r)%nat ->
  rows (VanillaESEmitter.mirror x) =
    flat_map (fun row => [row; map fneg row]) (rows x).
Proof.
  intros Hs Hl.
  assert (Hrows : Forall (fun row => length row = prod_list r) (rows x)).
  { unfold rows, leading_dim, row_size. rewrite Hs; simpl.
    apply chunks_widths; lia. }
  unfold VanillaESEmitter.mirror, rows at 1, leading_dim, row_size; simpl.
  rewrite Hs; simpl.
  replace (rows (expand_dims1 x)) with (rows x).
  2:{ unfold rows, leading_dim, row_size, expand_dims1; simpl.
      rewrite Hs; simpl. rewrite Nat.add_0_r; reflexivity. }
  replace (rows (expand_dims1 (map_array fneg x))) with (map (map fneg) (rows x)).
  2:{ unfold rows, leading_dim, row_size, expand_dims1, map_array; simpl.
      rewrite Hs; simpl. rewrite Nat.add_0_r, chunks_map; reflexivity. }
  rewrite map2_app_map, concat_interleave.
  assert (Hh : leading_dim x = h) by (unfold leading_dim; rewrite Hs; reflexivity).
  assert (Hlen : length (rows x) = h)
    by (unfold rows; rewrite chunks_length; exact Hh).
  rewrite Hh, <- Hlen, <- (interleave_length (map fneg) (rows x)).
  apply chunks_concat.
  clear - Hrows. induction Hrows as [|row ls Hrow _ IH]; simpl; auto.
  repeat constructor; auto. rewrite length_map; exact Hrow.
Qed.

Section SamplingFacts.

Variables RNGKey OptState ExtraScores : Type.
Variable normal_entry : RNGKey -> list nat -> nat -> Q.

Local Abbreviation Emitter := (VanillaESEmitter.Emitter RNGKey OptState ExtraScores).

Lemma random_normal_length (key : RNGKey) (shp : list nat) :
  length (data (VanillaESEmitter.random_normal normal_entry key shp))
    = prod_list shp.
Proof.
  unfold VanillaESEmitter.random_normal; simpl.
  rewrite length_map, length_seq; reflexivity.
Qed.

(** C4.  Under mirrored sampling with an even [sample_number] [N], for
    every leaf of the parent (of leading dimension [b]) the perturbation
    has [b * N] rows, row [2i+1] is the exact negation of row [2i], row
    [2i] is row [i] of the half noise, and [gradient_noise] is that half
    noise, of [b * (N/2)] rows. *)
Theorem mirrored_noise_is_antithetic :
  forall (self : Emitter) (parent : Genotype) (subkey : RNGKey),
    sample_mirror (VanillaESEmitter._config self) = true ->
    Nat.Even (VanillaESEmitter.total_sample_number self) ->
    let N := VanillaESEmitter.total_sample_number self in
    let sample_noise :=
      fst (VanillaESEmitter.sample_noises normal_entry self parent subkey) in
    let gradient_noise :=
      snd (VanillaESEmitter.sample_noises normal_entry self parent subkey) in
    gradient_noise =
      map (fun x => VanillaESEmitter.random_normal normal_entry subkey
                      ((leading_dim x * (N / 2))%nat :: tl (shape x)))
          parent /\
    length sample_noise = length parent /\
    forall (l : nat) (d : ndarray), (l < length parent)%nat ->
      let b := leading_dim (nth l parent d) in
      leading_dim (nth l gradient_noise d) = (b * (N / 2))%nat /\
      leading_dim (nth l sample_noise d) = (b * N)%nat /\
      length (rows (nth l sample_noise d)) = (b * N)%nat /\
      forall i, (i < b * (N / 2))%nat ->
        nth (2 * i + 1) (rows (nth l sample_noise d)) []
          = map fneg (nth (2 * i) (rows (nth l sample_noise d)) []) /\
        nth (2 * i) (rows (nth l sample_noise d)) []
          = nth i (rows (nth l gradient_noise d)) [].
Proof.
  intros self parent subkey Hm [h Hh] N sample_noise gradient_noise.
  unfold sample_noise, gradient_noise, VanillaESEmitter.sample_noises.
  rewrite Hm; cbv zeta; cbn [fst snd]. fold N.
  assert (Hhalf : (N / 2 = h)%nat).
  { unfold N; rewrite Hh, Nat.mul_comm. apply Nat.div_mul; lia. }
  split; [reflexivity|]. split; [rewrite !length_map; reflexivity|].
  intros l d Hl. set (b := leading_dim (nth l parent d)).
  set (half := fun x : ndarray =>
         VanillaESEmitter.random_normal normal_entry subkey
           (shape (repeat_axis0 x (N / 2)))).
  assert (Hg : nth l (map half parent) d = half (nth l parent d)).
  { rewrite (nth_indep (map half parent) d (half d))
      by (rewrite length_map; exact Hl).
    apply map_nth. }
  assert (Hs : nth l (map VanillaESEmitter.mirror (map half parent)) d
               = VanillaESEmitter.mirror (half (nth l parent d))).
  { rewrite (nth_indep _ d (VanillaESEmitter.mirror (half d)))
      by (rewrite !length_map; exact Hl).
    rewrite !map_nth; reflexivity. }
  rewrite Hs, Hg. clear Hs Hg.
  set (x := half (nth l parent d)).
  assert (Hsx : shape x = (b * (N / 2))%nat :: tl (shape (nth l parent d)))
    by reflexivity.
  assert (Hlx : length (data x)
                = (b * (N / 2) * prod_list (tl (shape (nth l parent d))))%nat).
  { unfold x, half. rewrite random_normal_length. reflexivity. }
  pose proof (mirror_rows x Hsx Hlx) as Hrows.
  assert (Hnx : length (rows x) = (b * (N / 2))%nat).
  { unfold rows; rewrite chunks_length. unfold leading_dim; rewrite Hsx.
    reflexivity. }
  assert (HbN : (b * (N / 2) * 2 = b * N)%nat).
  { rewrite Hhalf. unfold N. rewrite Hh. lia. }
  split; [|split; [|split]].
  - unfold leading_dim; rewrite Hsx; reflexivity.
  - unfold VanillaESEmitter.mirror, leading_dim; simpl.
    unfold leading_dim; rewrite Hsx; simpl. exact HbN.
  - rewrite Hrows, interleave_length, Hnx. exact HbN.
  - intros i Hi. rewrite Hrows.
    destruct (@nth_interleave _ (map fneg) (rows x) i [] ltac:(lia)) as [H0 H1].
    rewrite H1, H0; split; reflexivity.
Qed.

End SamplingFacts.

(* ================================================================== *)
(** ** The gradient estimate *)

Lemma firstn_map2 {A B C : Type} (f : A -> B -> C) (k : nat)
    (l : list A) (l' : list B) :
  firstn k (map2 f l l') = map2 f (firstn k l) (firstn k l').
Proof.
  revert l l'; induction k as [|k IH]; intros [|a l] [|b l']; simpl; auto.
  f_equal; apply IH.
Qed.

Lemma skipn_map2 {A B C : Type} (f : A -> B -> C) (k : nat)
    (l : list A) (l' : list B) :
  skipn k (map2 f l l') = map2 f (skipn k l) (skipn k l').
Proof.
  revert l l'; induction k as [|k IH]; intros [|a l] [|b l']; simpl; auto.
  destruct (skipn k l); reflexivity.
Qed.

Lemma map2_repeat_r {A B C : Type} (f : A -> B -> C) (l : list A) (b : B) (n : nat) :
  (length l <= n)%nat ->
  map2 f l (repeat b n) = map (fun a => f a b) l.
Proof.
  revert n; induction l as [|a l IH]; intros [|n] H; simpl in *; try lia; auto.
  f_equal; apply IH; lia.
Qed.

Lemma map2_map_seq {A B C : Type} (f : A -> B -> C) (g : nat -> A)
    (l : list B) (d : B) (s : nat) :
  map2 f (map g (seq s (length l))) l
    = map (fun j => f (g j) (nth (j - s) l d)) (seq s (length l)).
Proof.
  revert s; induction l as [|b l IH]; intros s; simpl; auto.
  rewrite Nat.sub_diag. f_equal.
  rewrite IH. apply map_ext_in; intros j Hj. apply in_seq in Hj.
  replace (j - s)%nat with (S (j - S s)) by lia. reflexivity.
Qed.

Lemma seq_nth_self {A : Type} (l : list A) (d : A) :
  map (fun j => nth j l d) (seq 0 (length l)) = l.
Proof.
  induction l as [|a l IH]; simpl; auto.
  f_equal. rewrite <- seq_shift, map_map. exact IH.
Qed.

(** The rows of the noise multiplied elementwise by the broadcast ranks. *)
Lemma chunks_broadcast_mul (n d : nat) (X ranks : list float) :
  length X = (n * d)%nat ->
  length ranks = n ->
  chunks n d (map2 fmul X (flat_map (fun r => repeat r d) ranks))
    = map2 (fun row w => map (fun v => (v * w)%float) row) (chunks n d X) ranks.
Proof.
  revert X ranks; induction n as [|n IH]; intros X [|w ranks] HX Hr;
    simpl in *; try lia; auto.
  rewrite firstn_map2, skipn_map2.
  rewrite firstn_app, repeat_length, Nat.sub_diag, firstn_O, app_nil_r.
  rewrite (@firstn_all2 _ d (repeat w d)) by (rewrite repeat_length; lia).
  rewrite skipn_app, repeat_length, Nat.sub_diag, skipn_O.
  rewrite (@skipn_all2 _ d (repeat w d)) by (rewrite repeat_length; lia). simpl.
  f_equal.
  - apply map2_repeat_r. rewrite length_firstn; lia.
  - apply IH; [rewrite length_skipn; lia | lia].
Qed.

(** Adding rows one after the other sums each column in row order. *)
Lemma fold_rows_columns (d : nat) (ls : list (list float)) (acc : list float) :
  length acc = d ->
  Forall (fun r => length r = d) ls ->
  fold_left (map2 fadd) ls acc
    = map (fun j => fold_left fadd (map (fun r => nth j r fzero) ls)
                              (nth j acc fzero))
          (seq 0 d).
Proof.
  intros Hacc Hls; revert acc Hacc.
  induction Hls as [|r ls Hr _ IH]; intros acc Hacc; simpl.
  - subst d. symmetry; apply seq_nth_self.
  - rewrite IH by (rewrite map2_length; lia).
    apply map_ext_in; intros j Hj. apply in_seq in Hj.
    rewrite (nth_map2 fadd acc r fzero fzero fzero) by lia. reflexivity.
Qed.

Section GradientFacts.

Variables RNGKey OptState ExtraScores : Type.

Local Abbreviation Emitter := (VanillaESEmitter.Emitter RNGKey OptState ExtraScores).

Lemma gradient_leaf_refines (self : Emitter) (n : nat) (tail : list nat)
    (weights : list float) (noise p : ndarray) :
  (0 < n)%nat ->
  length weights = n ->
  shape noise = n :: tail ->
  length (data noise) = (n * prod_list tail)%nat ->
  length (data p) = prod_list tail ->
  VanillaESEmitter.gradient_leaf self n noise
      (VanillaESEmitter.broadcast_ranks weights noise) p
    = VanillaESEmitter.gradient_leaf_spec self weights noise p.
Proof.
  intros Hn Hw Hs Hl Hp.
  set (d := prod_list tail) in *.
  assert (Hrs : row_size noise = d) by (unfold row_size; rewrite Hs; reflexivity).
  unfold VanillaESEmitter.gradient_leaf, VanillaESEmitter.gradient_leaf_spec,
    VanillaESEmitter.broadcast_ranks, zip_array, reshape. simpl.
  f_equal.
  set (G := map2 fmul (data noise) (flat_map (fun r => repeat r (row_size noise)) weights)).
  assert (HG : length G = (n * d)%nat).
  { unfold G. rewrite map2_length, Hl, Hrs.
    assert (Hf : forall l : list float,
               length (flat_map (fun r => repeat r d) l) = (length l * d)%nat).
    { induction l as [|r l IH]; simpl; auto.
      rewrite length_app, repeat_length, IH; reflexivity. }
    rewrite Hf, Hw. lia. }
  assert (Hdiv : (length G / n = d)%nat).
  { rewrite HG, Nat.mul_comm. apply Nat.div_mul; lia. }
  unfold sum_axis0, rows, leading_dim, row_size. simpl.
  rewrite Hdiv, Nat.mul_1_r.
  assert (Hrows : chunks n d G
                  = map2 (fun row w => map (fun v => (v * w)%float) row)
                         (rows noise) weights).
  { unfold G. rewrite Hrs. unfold rows, leading_dim. rewrite Hs, Hrs. simpl.
    apply chunks_broadcast_mul; auto. }
  rewrite (@fold_rows_columns d) by
    (try apply repeat_length; apply chunks_widths; lia).
  rewrite Hrows, map_map.
  rewrite <- Hp.
  rewrite (map2_map_seq _ _ (data p) fzero 0).
  apply map_ext_in; intros j Hj. apply in_seq in Hj.
  rewrite Nat.sub_0_r.
  unfold VanillaESEmitter.gradient_entry_spec, fsum.
  rewrite nth_repeat. reflexivity.
Qed.

(** C1.  The gradient computed by the ES step, leaf by leaf: with
    [n] rows of gradient noise ([N/2] under mirroring, [N] otherwise)
    and one rank-weight per row, entry [j] of the estimate is minus the
    sum over the rows of [noise * weight], divided by [N * sample_sigma]
    with the full [N], plus [l2_coefficient] times entry [j] of the
    parent; the result has the shape of the parent leaf. *)
Theorem es_gradient_refines_spec :
  forall (self : Emitter) (parent gradient_noise : Genotype) (ranks : list float),
    let n := VanillaESEmitter.effective_sample_number self in
    (0 < n)%nat ->
    length ranks = n ->
    Forall2 (fun noise p =>
               exists tail,
                 shape noise = n :: tail /\
                 length (data noise) = (n * prod_list tail)%nat /\
                 length (data p) = prod_list tail)
            gradient_noise parent ->
    VanillaESEmitter.es_gradient self n parent gradient_noise ranks
      = map2 (VanillaESEmitter.gradient_leaf_spec self ranks)
             gradient_noise parent.
Proof.
  intros self parent gradient_noise ranks n Hn Hr Hleaves.
  unfold VanillaESEmitter.es_gradient.
  induction Hleaves as [|noise p gn ps (tail & Hs & Hl & Hp) _ IH]; simpl; auto.
  f_equal; [|exact IH].
  eapply gradient_leaf_refines; eauto.
Qed.

End GradientFacts.

(* ================================================================== *)
(** ** Stable sorting *)

Lemma filter_none {A : Type} (f : A -> bool) (l : list A) :
  (forall y, In y l -> f y = false) -> filter f l = [].
Proof.
  induction l as [|a l IH]; intros H; simpl; auto.
  rewrite H by (left; reflexivity). apply IH. intros; apply H; right; auto.
Qed.

Section SortPermutation.

Variable A : Type.
Variable lt : A -> A -> bool.

Lemma insert_sorted_perm (x : A) (l : list A) :
  Permutation (insert_sorted lt x l) (x :: l).
Proof.
  induction l as [|y t IH]; simpl; auto.
  destruct (lt y x); auto.
  rewrite IH. apply perm_swap.
Qed.

Lemma stable_sort_perm (l : list A) : Permutation (stable_sort lt l) l.
Proof.
  induction l as [|x l IH]; simpl; auto.
  rewrite insert_sorted_perm. auto.
Qed.

Lemma stable_sort_length (l : list A) : length (stable_sort lt l) = length l.
Proof.
  apply Permutation_length, stable_sort_perm.
Qed.

(** Sorting commutes with a map that preserves the comparisons. *)
Lemma stable_sort_map {B : Type} (lt' : B -> B -> bool) (f : A -> B) (l : list A) :
  (forall a b, In a l -> In b l -> lt' (f a) (f b) = lt a b) ->
  stable_sort lt' (map f l) = map f (stable_sort lt l).
Proof.
  induction l as [|x l IH]; intros H; simpl; auto.
  rewrite IH by (intros; apply H; simpl; auto).
  assert (Hin : forall y, In y (stable_sort lt l) -> In y l)
    by (intros y; apply Permutation_in, stable_sort_perm).
  revert Hin. generalize (stable_sort lt l) as s.
  induction s as [|y s IHs]; intros Hin; simpl; auto.
  rewrite H; [| right; apply Hin; left; reflexivity | left; reflexivity].
  destruct (lt y x); simpl; auto.
  f_equal. apply IHs. intros; apply Hin; simpl; auto.
Qed.

End SortPermutation.

Section StableSortFacts.

Variable A : Type.
Variable lt : A -> A -> bool.

(** A strict weak order: the keys that are neither before nor after one
    another form classes. *)
Hypothesis lt_irrefl : forall a, lt a a = false.
Hypothesis lt_trans :
  forall a b c, lt a b = true -> lt b c = true -> lt a c = true.
Hypothesis lt_incomparable_trans :
  forall a b c, lt a b = false -> lt b c = false -> lt a c = false.

Lemma lt_asym (a b : A) : lt a b = true -> lt b a = false.
Proof.
  intros H. destruct (lt b a) eqn:E; auto.
  rewrite <- (lt_irrefl a). symmetry. eapply lt_trans; eauto.
Qed.

Local Abbreviation prec := (precedes lt).

Lemma precedes_false (p q : A * nat) :
  prec p q = false <->
  lt (fst p) (fst q) = false /\
  (lt (fst q) (fst p) = true \/ (snd q <= snd p)%nat).
Proof.
  unfold precedes. rewrite orb_false_iff, andb_false_iff, negb_false_iff.
  rewrite Nat.ltb_ge. tauto.
Qed.

Lemma precedes_true (p q : A * nat) :
  prec p q = true <->
  lt (fst p) (fst q) = true \/
  (lt (fst q) (fst p) = false /\ (snd p < snd q)%nat).
Proof.
  unfold precedes. rewrite orb_true_iff, andb_true_iff, negb_true_iff.
  rewrite Nat.ltb_lt. tauto.
Qed.

Lemma precedes_irrefl (p : A * nat) : prec p p = false.
Proof.
  apply precedes_false. rewrite lt_irrefl. split; auto.
Qed.

Lemma precedes_asym (p q : A * nat) : prec p q = true -> prec q p = false.
Proof.
  rewrite precedes_true, precedes_false. intros [H|[H1 H2]].
  - split; [apply lt_asym; auto | auto].
  - split; [auto | right; lia].
Qed.

Lemma precedes_total (p q : A * nat) :
  snd p <> snd q -> prec q p = false -> prec p q = true.
Proof.
  rewrite precedes_true, precedes_false. intros Hne [H1 [H2|H2]]; auto.
  destruct (lt (fst p) (fst q)) eqn:E; auto. right; split; auto. lia.
Qed.

Lemma not_precedes_trans (p q r : A * nat) :
  prec q p = false -> prec r q = false -> prec r p = false.
Proof.
  rewrite !precedes_false. intros [H1 H2] [H3 H4]. split.
  - eapply lt_incomparable_trans; eauto.
  - destruct H2 as [H2|H2].
    + left. destruct (lt (fst p) (fst r)) eqn:E; auto.
      rewrite (lt_incomparable_trans E H3) in H2. discriminate.
    + destruct H4 as [H4|H4].
      * left. destruct (lt (fst p) (fst r)) eqn:E; auto.
        rewrite (lt_incomparable_trans H1 E) in H4. discriminate.
      * right; lia.
Qed.

(** Inserting an entry whose index is below those already there: the
    comparison of keys decides as the stable order does. *)
Lemma insert_by_key_precedes (x : A * nat) (l : list (A * nat)) :
  Forall (fun y => (snd x < snd y)%nat) l ->
  insert_sorted (by_key lt) x l = insert_sorted prec x l.
Proof.
  induction 1 as [|y t Hy _ IH]; simpl; auto.
  assert (E : prec y x = by_key lt y x).
  { unfold precedes, by_key.
    replace (snd y <? snd x)%nat with false
      by (symmetry; apply Nat.ltb_ge; lia).
    rewrite andb_false_r, orb_false_r; reflexivity. }
  rewrite E. destruct (by_key lt y x); congruence.
Qed.

Lemma stable_sort_by_key_precedes (l : list (A * nat)) :
  StronglySorted (fun p q => (snd p < snd q)%nat) l ->
  stable_sort (by_key lt) l = stable_sort prec l.
Proof.
  induction 1 as [|x l Hs IH Hx]; simpl; auto.
  rewrite <- IH. apply insert_by_key_precedes.
  rewrite Forall_forall in *. intros y Hy. apply Hx.
  eapply Permutation_in; [apply stable_sort_perm | exact Hy].
Qed.

Lemma insert_sorted_precedes_sorted (x : A * nat) (l : list (A * nat)) :
  StronglySorted (fun p q => prec q p = false) l ->
  StronglySorted (fun p q => prec q p = false) (insert_sorted prec x l).
Proof.
  induction 1 as [|y t Hs IH Hy]; simpl.
  - repeat constructor.
  - destruct (prec y x) eqn:E.
    + constructor; auto.
      rewrite Forall_forall in *. intros z Hz.
      apply (Permutation_in _ (insert_sorted_perm prec x t)) in Hz.
      destruct Hz as [<-|Hz]; [apply precedes_asym; auto | auto].
    + constructor; [constructor; auto|].
      constructor; auto.
      rewrite Forall_forall in *. intros z Hz.
      eapply not_precedes_trans; eauto.
Qed.

Lemma stable_sort_precedes_sorted (l : list (A * nat)) :
  StronglySorted (fun p q => prec q p = false) (stable_sort prec l).
Proof.
  induction l as [|x l IH]; simpl.
  - constructor.
  - apply insert_sorted_precedes_sorted; auto.
Qed.

(** In a sorted list without repeated index, an entry sits at the
    position given by the number of entries before it in the order. *)
Lemma sorted_position_count (l : list (A * nat)) (k : nat) (d : A * nat) :
  StronglySorted (fun p q => prec q p = false) l ->
  NoDup (map snd l) ->
  (k < length l)%nat ->
  length (filter (fun y => prec y (nth k l d)) l) = k.
Proof.
  intros Hs; revert k. induction Hs as [|x l Hs IH Hx]; intros k Hnd Hk;
    simpl in *; [lia|].
  inversion Hnd as [|? ? Hnotin Hnd']; subst.
  destruct k as [|k].
  - rewrite precedes_irrefl.
    rewrite filter_none; auto.
    intros y Hy. rewrite Forall_forall in Hx. auto.
  - assert (Hin : In (nth k l d) l) by (apply nth_In; lia).
    assert (E : prec x (nth k l d) = true).
    { apply precedes_total.
      - intros Heq. apply Hnotin. rewrite Heq. apply in_map; auto.
      - rewrite Forall_forall in Hx. auto. }
    rewrite E; simpl. f_equal. apply IH; auto; lia.
Qed.

Lemma sorted_nth_order (l : list (A * nat)) (i j : nat) (d : A * nat) :
  StronglySorted (fun p q => prec q p = false) l ->
  (i < j)%nat -> (j < length l)%nat ->
  prec (nth j l d) (nth i l d) = false.
Proof.
  intros Hs; revert i j. induction Hs as [|x l Hs IH Hx]; intros i j Hij Hj;
    simpl in *; [lia|].
  destruct j as [|j]; [lia|]. destruct i as [|i].
  - rewrite Forall_forall in Hx. apply Hx, nth_In; lia.
  - apply IH; lia.
Qed.

End StableSortFacts.

(** ** argsort and ranks *)

Lemma filter_length_perm {A : Type} (f : A -> bool) (l l' : list A) :
  Permutation l l' -> length (filter f l) = length (filter f l').
Proof.
  induction 1 as [|x l l' _ IH|x y l|l l' l'' _ IH1 _ IH2]; simpl; auto.
  - destruct (f x); simpl; auto.
  - destruct (f x), (f y); reflexivity.
  - congruence.
Qed.

Lemma filter_length_map {A B : Type} (f : B -> bool) (g : A -> B) (l : list A) :
  length (filter f (map g l)) = length (filter (fun a => f (g a)) l).
Proof.
  induction l as [|a l IH]; simpl; auto.
  destruct (f (g a)); simpl; auto.
Qed.

Lemma count_below (i n : nat) :
  length (filter (fun x => (x <? i)%nat) (seq 0 n)) = Nat.min i n.
Proof.
  induction n as [|n IH]; [rewrite Nat.min_0_r; reflexivity|].
  rewrite seq_S, filter_app, length_app, IH. simpl.
  destruct (Nat.ltb_spec n i); simpl; lia.
Qed.

Lemma enumerate_from {A : Type} (d : A) (a : list A) (s : nat) :
  combine a (seq s (length a))
    = map (fun j => (nth (j - s) a d, j)) (seq s (length a)).
Proof.
  revert s; induction a as [|x a IH]; intros s; simpl; auto.
  rewrite Nat.sub_diag. f_equal.
  rewrite IH. apply map_ext_in; intros j Hj. apply in_seq in Hj.
  replace (j - s)%nat with (S (j - S s)) by lia. reflexivity.
Qed.

Lemma enumerate_spec {A : Type} (d : A) (a : list A) :
  enumerate a = map (fun j => (nth j a d, j)) (seq 0 (length a)).
Proof.
  unfold enumerate. rewrite (enumerate_from d a 0).
  apply map_ext; intros j. rewrite Nat.sub_0_r; reflexivity.
Qed.

Lemma enumerate_fst {A : Type} (a : list A) : map fst (enumerate a) = a.
Proof.
  unfold enumerate. generalize 0%nat.
  induction a as [|x a IH]; intros s; simpl; f_equal; auto.
Qed.

Lemma enumerate_snd {A : Type} (a : list A) :
  map snd (enumerate a) = seq 0 (length a).
Proof.
  unfold enumerate. generalize 0%nat.
  induction a as [|x a IH]; intros s; simpl; f_equal; auto.
Qed.

Lemma enumerate_indices_increase {A : Type} (a : list A) :
  StronglySorted (fun p q : A * nat => (snd p < snd q)%nat) (enumerate a).
Proof.
  unfold enumerate. generalize 0%nat.
  induction a as [|x a IH]; intros s; simpl; constructor; auto.
  apply Forall_forall. intros [v j] Hin. apply in_combine_r in Hin.
  apply in_seq in Hin. simpl; lia.
Qed.

Section ArgsortFacts.

Variable A : Type.
Variable lt : A -> A -> bool.
Variable d : A.

Hypothesis lt_irrefl : forall a, lt a a = false.
Hypothesis lt_trans :
  forall a b c, lt a b = true -> lt b c = true -> lt a c = true.
Hypothesis lt_incomparable_trans :
  forall a b c, lt a b = false -> lt b c = false -> lt a c = false.

Lemma argsort_length (a : list A) : length (argsort lt a) = length a.
Proof.
  unfold argsort. rewrite length_map, stable_sort_length.
  unfold enumerate. rewrite length_combine, length_seq. lia.
Qed.

Lemma argsort_perm (a : list A) :
  Permutation (argsort lt a) (seq 0 (length a)).
Proof.
  unfold argsort. rewrite <- enumerate_snd.
  apply Permutation_map, stable_sort_perm.
Qed.

(** Entry [j] of the input is found, in the sorted order, at the position
    given by its stable rank. *)
Lemma sorted_at_stable_rank (a : list A) (j : nat) :
  (j < length a)%nat ->
  (stable_rank lt d a j < length a)%nat /\
  nth (stable_rank lt d a j) (stable_sort (by_key lt) (enumerate a)) (d, 0%nat)
    = (nth j a d, j).
Proof.
  intros Hj.
  set (S := stable_sort (by_key lt) (enumerate a)).
  assert (Hperm : Permutation S (enumerate a)) by apply stable_sort_perm.
  assert (Hsorted : StronglySorted (fun p q => precedes lt q p = false) S).
  { unfold S. rewrite (stable_sort_by_key_precedes lt (enumerate_indices_increase a)).
    apply stable_sort_precedes_sorted; auto. }
  assert (Hnd : NoDup (map snd S)).
  { eapply Permutation_NoDup.
    - apply Permutation_sym, Permutation_map, Hperm.
    - rewrite enumerate_snd. apply seq_NoDup. }
  assert (Hlen : length S = length a).
  { rewrite (Permutation_length Hperm). unfold enumerate.
    rewrite length_combine, length_seq. lia. }
  assert (Hin : In (nth j a d, j) S).
  { eapply Permutation_in; [apply Permutation_sym, Hperm|].
    rewrite (enumerate_spec d). apply in_map_iff. exists j. split; auto.
    apply in_seq; lia. }
  destruct (In_nth _ _ (d, 0%nat) Hin) as (k & Hk & Hnth).
  pose proof (sorted_position_count lt lt_irrefl (d, 0%nat) Hsorted Hnd Hk)
    as Hcount.
  rewrite Hnth in Hcount.
  rewrite (filter_length_perm _ Hperm), (enumerate_spec d), filter_length_map
    in Hcount.
  fold (stable_rank lt d a j) in Hcount.
  rewrite Hcount. split; [lia | exact Hnth].
Qed.

Lemma argsort_at_stable_rank (a : list A) (j : nat) :
  (j < length a)%nat ->
  (stable_rank lt d a j < length a)%nat /\
  nth (stable_rank lt d a j) (argsort lt a) 0%nat = j.
Proof.
  intros Hj. destruct (sorted_at_stable_rank a Hj) as [Hlt Hnth].
  split; auto. unfold argsort.
  change 0%nat with (snd (d, 0%nat)) at 1. rewrite map_nth, Hnth. reflexivity.
Qed.

(** An entry with a strictly smaller key has a strictly smaller rank. *)
Lemma stable_rank_strict (a : list A) (i j : nat) :
  (i < length a)%nat -> (j < length a)%nat ->
  lt (nth j a d) (nth i a d) = true ->
  (stable_rank lt d a j < stable_rank lt d a i)%nat.
Proof.
  intros Hi Hj Hlt.
  destruct (sorted_at_stable_rank a Hi) as [Hri Hni].
  destruct (sorted_at_stable_rank a Hj) as [Hrj Hnj].
  set (S := stable_sort (by_key lt) (enumerate a)) in *.
  assert (Hsorted : StronglySorted (fun p q => precedes lt q p = false) S).
  { unfold S. rewrite (stable_sort_by_key_precedes lt (enumerate_indices_increase a)).
    apply stable_sort_precedes_sorted; auto. }
  assert (Hlen : length S = length a).
  { unfold S. rewrite stable_sort_length. unfold enumerate.
    rewrite length_combine, length_seq. lia. }
  assert (Hprec : precedes lt (nth j a d, j) (nth i a d, i) = true).
  { unfold precedes; simpl. rewrite Hlt; reflexivity. }
  destruct (Nat.lt_trichotomy (stable_rank lt d a j) (stable_rank lt d a i))
    as [H|[H|H]]; auto.
  - rewrite H, Hni in Hnj. inversion Hnj; subst.
    rewrite lt_irrefl in Hlt; discriminate.
  - pose proof (sorted_nth_order lt (d, 0%nat) Hsorted H ltac:(lia)) as Hord.
    rewrite Hni, Hnj in Hord. congruence.
Qed.

End ArgsortFacts.

Lemma nat_ltb_irrefl (a : nat) : (a <? a)%nat = false.
Proof. apply Nat.ltb_irrefl. Qed.

Lemma nat_ltb_trans (a b c : nat) :
  (a <? b)%nat = true -> (b <? c)%nat = true -> (a <? c)%nat = true.
Proof. rewrite !Nat.ltb_lt; lia. Qed.

Lemma nat_ltb_incomparable_trans (a b c : nat) :
  (a <? b)%nat = false -> (b <? c)%nat = false -> (a <? c)%nat = false.
Proof. rewrite !Nat.ltb_ge; lia. Qed.

(** The argsort of a permutation of [0 .. n-1] is its inverse. *)
Lemma argsort_of_permutation (p : list nat) (k : nat) :
  Permutation p (seq 0 (length p)) ->
  (k < length p)%nat ->
  nth (nth k p 0%nat) (argsort Nat.ltb p) 0%nat = k.
Proof.
  intros Hperm Hk.
  destruct (@argsort_at_stable_rank nat Nat.ltb 0%nat nat_ltb_irrefl nat_ltb_trans
              nat_ltb_incomparable_trans p k Hk) as [_ Hnth].
  assert (Hnd : NoDup p).
  { eapply Permutation_NoDup; [apply Permutation_sym, Hperm | apply seq_NoDup]. }
  assert (Hv : (nth k p 0 < length p)%nat).
  { assert (Hin : In (nth k p 0%nat) (seq 0 (length p)))
      by (eapply Permutation_in; [exact Hperm | apply nth_In; exact Hk]).
    apply in_seq in Hin; lia. }
  assert (Hrank : stable_rank Nat.ltb 0%nat p k = nth k p 0%nat).
  { unfold stable_rank.
    rewrite (filter_ext_in _ (fun j => (nth j p 0 <? nth k p 0)%nat)).
    - rewrite <- (filter_length_map (fun x => (x <? nth k p 0)%nat)
                    (fun j => nth j p 0%nat)).
      rewrite seq_nth_self, (filter_length_perm _ Hperm), count_below. lia.
    - intros j Hj. apply in_seq in Hj. unfold precedes; simpl.
      destruct (Nat.ltb_spec (nth j p 0%nat) (nth k p 0%nat)) as [H|H];
        simpl; auto.
      destruct (Nat.ltb_spec (nth k p 0%nat) (nth j p 0%nat)) as [H'|H'];
        simpl; auto.
      apply Nat.ltb_ge.
      assert (Heq : nth j p 0%nat = nth k p 0%nat) by lia.
      apply (proj1 (NoDup_nth p 0%nat) Hnd) in Heq; lia. }
  rewrite <- Hrank. exact Hnth.
Qed.

(** [argsort (argsort a)] gives each entry its stable rank. *)
Lemma double_argsort_ranks {A : Type} (lt : A -> A -> bool) (d : A) (a : list A) :
  (forall x, lt x x = false) ->
  (forall x y z, lt x y = true -> lt y z = true -> lt x z = true) ->
  (forall x y z, lt x y = false -> lt y z = false -> lt x z = false) ->
  argsort Nat.ltb (argsort lt a) = map (stable_rank lt d a) (seq 0 (length a)).
Proof.
  intros H1 H2 H3.
  assert (Hl : length (argsort lt a) = length a) by apply argsort_length.
  apply (nth_ext _ _ 0%nat (stable_rank lt d a 0)).
  - rewrite argsort_length, Hl, length_map, length_seq. reflexivity.
  - rewrite argsort_length, Hl. intros i Hi.
    rewrite map_nth, seq_nth by exact Hi. simpl.
    destruct (@argsort_at_stable_rank A lt d H1 H2 H3 a i Hi) as [Hr Hn].
    rewrite <- Hn at 1.
    apply argsort_of_permutation.
    + rewrite Hl. apply argsort_perm.
    + rewrite Hl. exact Hr.
Qed.

(** ** The order on floats *)

Lemma Qltb_true (a b : Q) : negb (Qle_bool b a) = true <-> a < b.
Proof.
  rewrite negb_true_iff. split.
  - intros H. apply Qnot_le_lt. intros Hle.
    apply Qle_bool_iff in Hle. congruence.
  - intros H. destruct (Qle_bool b a) eqn:E; auto.
    apply Qle_bool_iff in E. lra.
Qed.

Lemma Qltb_false (a b : Q) : negb (Qle_bool b a) = false <-> b <= a.
Proof.
  rewrite negb_false_iff. apply Qle_bool_iff.
Qed.

Lemma fltb_Fin (a b : Q) : fltb (Fin a) (Fin b) = true <-> a < b.
Proof. apply Qltb_true. Qed.

Lemma fleb_Fin (a b : Q) : fleb (Fin a) (Fin b) = true <-> a <= b.
Proof.
  unfold fleb; simpl. rewrite orb_true_iff, Qltb_true, Qeq_bool_iff. split.
  - intros [H|H]; lra.
  - intros H. destruct (Qlt_le_dec a b); [left; auto | right; lra].
Qed.

Lemma sort_ltb_irrefl (a : float) : sort_ltb a a = false.
Proof.
  destruct a; simpl; auto. apply Qltb_false. lra.
Qed.

Lemma sort_ltb_trans (a b c : float) :
  sort_ltb a b = true -> sort_ltb b c = true -> sort_ltb a c = true.
Proof.
  destruct a, b, c; simpl; auto; try discriminate.
  rewrite !Qltb_true. lra.
Qed.

Lemma sort_ltb_incomparable_trans (a b c : float) :
  sort_ltb a b = false -> sort_ltb b c = false -> sort_ltb a c = false.
Proof.
  destruct a, b, c; simpl; auto; try discriminate.
  rewrite !Qltb_false. lra.
Qed.

(** The IEEE comparison implies the order of the sort. *)
Lemma fltb_sort_ltb (a b : float) : fltb a b = true -> sort_ltb a b = true.
Proof.
  destruct a, b; simpl; auto.
Qed.

Section RankFacts.

Variables RNGKey OptState ExtraScores : Type.

Local Abbreviation Emitter := (VanillaESEmitter.Emitter RNGKey OptState ExtraScores).

Lemma rank_weight_value (N r : nat) :
  (2 <= N)%nat ->
  (of_nat r / of_Z (Z.of_nat N - 1) - fhalf)%float
    = Fin (VanillaESEmitter.centered_rank N r).
Proof.
  intros HN. unfold of_nat, of_Z, fhalf, fsub, fdiv, VanillaESEmitter.centered_rank.
  assert (E : Qeq_bool (inject_Z (Z.of_nat N - 1)) 0 = false).
  { destruct (Qeq_bool (inject_Z (Z.of_nat N - 1)) 0) eqn:E; auto.
    apply Qeq_bool_iff in E. unfold Qeq in E; simpl in E. lia. }
  rewrite E. reflexivity.
Qed.

Lemma centered_rank_bounds (N r : nat) :
  (2 <= N)%nat -> (r < N)%nat ->
  - (1 # 2) <= VanillaESEmitter.centered_rank N r <= 1 # 2.
Proof.
  intros HN Hr. unfold VanillaESEmitter.centered_rank.
  set (a := inject_Z (Z.of_nat r)). set (c := inject_Z (Z.of_nat N - 1)).
  assert (Hc : 0 < c).
  { unfold c. change 0 with (inject_Z 0). rewrite <- Zlt_Qlt. lia. }
  assert (Ha0 : 0 <= a).
  { unfold a. change 0 with (inject_Z 0). rewrite <- Zle_Qle. lia. }
  assert (Hac : a <= c) by (unfold a, c; rewrite <- Zle_Qle; lia).
  assert (H0 : 0 <= a / c) by (apply Qle_shift_div_l; auto; lra).
  assert (H1 : a / c <= 1) by (apply Qle_shift_div_r; auto; lra).
  lra.
Qed.

Lemma centered_rank_strict (N r r' : nat) :
  (2 <= N)%nat -> (r < r')%nat ->
  VanillaESEmitter.centered_rank N r < VanillaESEmitter.centered_rank N r'.
Proof.
  intros HN Hr. unfold VanillaESEmitter.centered_rank, Qminus, Qdiv.
  apply Qplus_lt_l. apply Qmult_lt_compat_r.
  - apply Qinv_lt_0_compat. change 0 with (inject_Z 0). rewrite <- Zlt_Qlt. lia.
  - rewrite <- Zlt_Qlt. lia.
Qed.

(** C5 (as amended).  Under rank normalisation with [N >= 2] scores, the weight of
    score [i] is [rank/(N-1) - 0.5] where [rank] is its 0-indexed rank in
    the stable ascending order; every weight lies in [-0.5, 0.5]; and a
    score strictly greater than another has a strictly greater weight
    (hence also greater or equal). *)
Theorem rank_normalisation_is_centered_rank :
  forall (self : Emitter) (scores : list float),
    sample_rank_norm (VanillaESEmitter._config self) = true ->
    length scores = VanillaESEmitter.total_sample_number self ->
    (2 <= VanillaESEmitter.total_sample_number self)%nat ->
    let N := VanillaESEmitter.total_sample_number self in
    let weights := VanillaESEmitter.rank_transform self scores in
    weights =
      map (fun i => Fin (VanillaESEmitter.centered_rank N
                           (stable_rank sort_ltb NaN scores i)))
          (seq 0 N) /\
    (forall i, (i < N)%nat ->
       fleb (Fin (- (1 # 2))) (nth i weights NaN) = true /\
       fleb (nth i weights NaN) fhalf = true) /\
    (forall i j, (i < N)%nat -> (j < N)%nat ->
       fltb (nth j scores NaN) (nth i scores NaN) = true ->
       fltb (nth j weights NaN) (nth i weights NaN) = true /\
       fleb (nth j weights NaN) (nth i weights NaN) = true).
Proof.
  intros self scores Hnorm Hlen HN N weights.
  assert (Hw : weights =
    map (fun i => Fin (VanillaESEmitter.centered_rank N
                         (stable_rank sort_ltb NaN scores i)))
        (seq 0 N)).
  { unfold weights, VanillaESEmitter.rank_transform. rewrite Hnorm.
    rewrite (double_argsort_ranks sort_ltb NaN scores sort_ltb_irrefl
               sort_ltb_trans sort_ltb_incomparable_trans).
    rewrite map_map, Hlen. fold N.
    apply map_ext. intros i. apply rank_weight_value. exact HN. }
  assert (Hnth : forall i, (i < N)%nat ->
            nth i weights NaN =
              Fin (VanillaESEmitter.centered_rank N
                     (stable_rank sort_ltb NaN scores i))).
  { intros i Hi. rewrite Hw.
    rewrite (nth_indep _ NaN
               (Fin (VanillaESEmitter.centered_rank N
                       (stable_rank sort_ltb NaN scores 0))))
      by (rewrite length_map, length_seq; exact Hi).
    rewrite (map_nth (fun i => Fin (VanillaESEmitter.centered_rank N
                                      (stable_rank sort_ltb NaN scores i)))).
    rewrite seq_nth by exact Hi. reflexivity. }
  assert (Hrank : forall i, (i < N)%nat ->
            (stable_rank sort_ltb NaN scores i < N)%nat).
  { intros i Hi. unfold N. rewrite <- Hlen.
    apply (@argsort_at_stable_rank float sort_ltb NaN sort_ltb_irrefl
             sort_ltb_trans sort_ltb_incomparable_trans scores i).
    rewrite Hlen. exact Hi. }
  split; [exact Hw|]. split.
  - intros i Hi. rewrite (Hnth i Hi). unfold fhalf. rewrite !fleb_Fin.
    apply centered_rank_bounds; auto.
  - intros i j Hi Hj Hlt. rewrite (Hnth i Hi), (Hnth j Hj).
    rewrite fltb_Fin, fleb_Fin.
    assert (Hs : VanillaESEmitter.centered_rank N (stable_rank sort_ltb NaN scores j)
                 < VanillaESEmitter.centered_rank N (stable_rank sort_ltb NaN scores i)).
    { apply centered_rank_strict; auto.
      apply (@stable_rank_strict float sort_ltb NaN sort_ltb_irrefl
               sort_ltb_trans sort_ltb_incomparable_trans scores i j).
      - rewrite Hlen; exact Hi.
      - rewrite Hlen; exact Hj.
      - apply fltb_sort_ltb; exact Hlt. }
    split; [exact Hs | lra].
Qed.

End RankFacts.

(* ================================================================== *)
(** ** NoveltyArchive.novelty *)

Lemma Qplus_0_r_eq (a : Q) : a + 0 = a.
Proof.
  destruct a as [n d]. unfold Qplus; simpl.
  rewrite Z.mul_1_r, Z.add_0_r, Pos.mul_1_r. reflexivity.
Qed.

Lemma Qplus_0_l_eq (a : Q) : 0 + a = a.
Proof.
  destruct a as [n d]. unfold Qplus; simpl.
  rewrite Z.mul_1_r. reflexivity.
Qed.

Lemma Qdiv_1_r_eq (a : Q) : a / 1 = a.
Proof.
  destruct a as [n d]. unfold Qdiv, Qmult, Qinv; simpl.
  rewrite Z.mul_1_r, Pos.mul_1_r. reflexivity.
Qed.

Lemma sequence_map_some {A B : Type} (f : A -> option B) (g : A -> B) (l : list A) :
  (forall x, In x l -> f x = Some (g x)) ->
  sequence (map f l) = Some (map g l).
Proof.
  induction l as [|a l IH]; intros H; simpl; auto.
  rewrite H by (left; reflexivity).
  rewrite IH by (intros; apply H; right; auto). reflexivity.
Qed.

Lemma map2_map_both {A B C D : Type} (h : B -> C -> D) (f : A -> B) (g : A -> C)
    (l : list A) :
  map2 h (map f l) (map g l) = map (fun a => h (f a) (g a)) l.
Proof.
  induction l as [|a l IH]; simpl; f_equal; auto.
Qed.

Lemma sort_ltb_neg (a b : float) :
  distance_like a -> distance_like b ->
  sort_ltb (fneg b) (fneg a) = sort_ltb a b.
Proof.
  intros [->|[qa ->]] [->|[qb ->]]; simpl; auto.
  destruct (negb (Qle_bool qb qa)) eqn:E.
  - apply Qltb_true in E. apply Qltb_true. lra.
  - apply Qltb_false in E. apply Qltb_false. lra.
Qed.

Lemma enumerate_map {A B : Type} (f : A -> B) (l : list A) :
  enumerate (map f l) = map (fun p => (f (fst p), snd p)) (enumerate l).
Proof.
  unfold enumerate. rewrite length_map. generalize 0%nat.
  induction l as [|a l IH]; intros s; simpl; f_equal; auto.
Qed.

Lemma enumerate_In {A : Type} (d : A) (l : list A) (p : A * nat) :
  In p (enumerate l) -> In (fst p) l /\ fst p = nth (snd p) l d.
Proof.
  intros H. split.
  - destruct p. eapply in_combine_l; eauto.
  - rewrite (enumerate_spec d) in H. apply in_map_iff in H.
    destruct H as (j & <- & _). reflexivity.
Qed.

(** The entries taken at the indices of [top_k] on the negated row are the
    [k] smallest entries of the row. *)
Lemma top_k_takes_k_smallest (d : list float) (k : nat) :
  Forall distance_like d ->
  (k <= length d)%nat ->
  exists vals idx,
    top_k (map fneg d) k = Some (vals, idx) /\
    map (fun i => nth i (map unmask d) NaN) idx
      = map unmask (NoveltyArchive.k_smallest k d).
Proof.
  intros Hd Hk. unfold top_k. rewrite length_map.
  replace (k <=? length d)%nat with true by (symmetry; apply Nat.leb_le; exact Hk).
  do 2 eexists. split; [reflexivity|].
  rewrite enumerate_map.
  rewrite (@stable_sort_map _ (by_key sort_ltb) _
             (by_key (fun x y => sort_ltb y x))
             (fun p => (fneg (fst p), snd p))).
  2:{ intros p q Hp Hq. unfold by_key; simpl.
      rewrite Forall_forall in Hd.
      apply sort_ltb_neg; apply Hd; eapply (enumerate_In NaN); eauto. }
  set (S := stable_sort (by_key sort_ltb) (enumerate d)).
  rewrite firstn_map, !map_map. simpl.
  unfold NoveltyArchive.k_smallest.
  replace (stable_sort sort_ltb d) with (map fst S).
  2:{ unfold S. rewrite <- (enumerate_fst d) at 2.
      symmetry. apply stable_sort_map. intros; reflexivity. }
  rewrite firstn_map, map_map.
  apply map_ext_in. intros p Hp.
  apply In_firstn in Hp.
  apply (Permutation_in _ (stable_sort_perm (by_key sort_ltb) (enumerate d))) in Hp.
  destruct (enumerate_In NaN _ _ Hp) as [_ Hfst].
  rewrite Hfst. change NaN with (unmask NaN) at 1. apply map_nth.
Qed.

Lemma nanmean_unmask (vs : list float) :
  Forall distance_like vs ->
  nanmean (map unmask vs) = NoveltyArchive.mean_of_finite vs.
Proof.
  intros H. unfold nanmean, NoveltyArchive.mean_of_finite, nansum, fsum.
  assert (Hsum : forall acc : Q,
            fold_left fadd (map (fun v => if isnan v then fzero else v)
                                (map unmask vs)) (Fin acc)
            = fold_left fadd (filter isfinite vs) (Fin acc)).
  { induction H as [|v vs [->|[q ->]] _ IH]; intros acc; simpl; auto.
    rewrite Qplus_0_r_eq. apply IH. }
  assert (Hcount : length (filter (fun v => negb (isnan v)) (map unmask vs))
                   = length (filter isfinite vs)).
  { clear Hsum. induction H as [|v vs [->|[q ->]] _ IH]; simpl; auto. }
  unfold fzero. rewrite Hsum, Hcount. reflexivity.
Qed.

Section NoveltyFacts.

Variable sqrtQ : Q -> Q.

Lemma fsum_squares_finite (l : list float) :
  finite_row l ->
  exists q, 0 <= q /\ fsum (map NoveltyArchive.square l) = Fin q.
Proof.
  intros H. unfold fsum, fzero.
  assert (G : forall acc, 0 <= acc ->
            exists q, 0 <= q /\
              fold_left fadd (map NoveltyArchive.square l) (Fin acc) = Fin q).
  { induction H as [|v l [a ->] _ IH]; intros acc Hacc; simpl.
    - exists acc; auto.
    - apply IH. nra. }
  apply G. lra.
Qed.

Lemma map2_fsub_finite (x y : Row) :
  finite_row x -> finite_row y -> finite_row (map2 fsub x y).
Proof.
  intros Hx; revert y. induction Hx as [|a x [qa ->] _ IH]; intros y Hy;
    destruct Hy as [|b y [qb ->] Hy]; simpl; constructor.
  - eexists; reflexivity.
  - apply IH; exact Hy.
Qed.

Lemma distance_finite (x y : Row) :
  finite_row x -> finite_row y ->
  exists q, NoveltyArchive.distance sqrtQ x y = Fin q.
Proof.
  intros Hx Hy. unfold NoveltyArchive.distance.
  destruct (fsum_squares_finite (map2_fsub_finite Hx Hy)) as (q & Hq & ->).
  simpl. apply Qle_bool_iff in Hq. rewrite Hq. eexists; reflexivity.
Qed.

(** The masked row of distances of one query. *)
Lemma masked_row (self : NoveltyArchive.t) (x : Row) :
  length (NoveltyArchive.archive self) = NoveltyArchive.size self ->
  where_ (NoveltyArchive.valid_slots self)
         (map (fun y => NoveltyArchive.distance sqrtQ x y)
              (NoveltyArchive.archive self)) PInf
    = map (NoveltyArchive.masked_distance sqrtQ self x)
          (seq 0 (NoveltyArchive.size self)).
Proof.
  intros Hlen. unfold where_, NoveltyArchive.valid_slots.
  set (ds := map (fun y => NoveltyArchive.distance sqrtQ x y)
                 (NoveltyArchive.archive self)).
  assert (Hds : length ds = NoveltyArchive.size self)
    by (unfold ds; rewrite length_map; exact Hlen).
  rewrite <- Hds.
  rewrite (map2_map_seq _ _ ds (NoveltyArchive.distance sqrtQ x []) 0).
  apply map_ext. intros j. rewrite Nat.sub_0_r.
  unfold NoveltyArchive.masked_distance, ds.
  rewrite (map_nth (fun y => NoveltyArchive.distance sqrtQ x y)). reflexivity.
Qed.

Lemma masked_row_distance_like (self : NoveltyArchive.t) (x : Row) :
  finite_row x ->
  Forall finite_row (NoveltyArchive.archive self) ->
  Forall distance_like
    (map (NoveltyArchive.masked_distance sqrtQ self x)
         (seq 0 (NoveltyArchive.size self))).
Proof.
  intros Hx Ha. apply Forall_forall. intros v Hv.
  apply in_map_iff in Hv. destruct Hv as (i & <- & _).
  unfold NoveltyArchive.masked_distance.
  destruct (Z.of_nat i <? NoveltyArchive.position self + 1)%Z; [|left; reflexivity].
  right. apply distance_finite; auto.
  destruct (Nat.lt_ge_cases i (length (NoveltyArchive.archive self))) as [H|H].
  - rewrite Forall_forall in Ha. apply Ha, nth_In; exact H.
  - rewrite nth_overflow by exact H. constructor.
Qed.

(** [novelty] computes the score that the specification words. *)
Lemma novelty_refines (self : NoveltyArchive.t) (descriptors : Descriptor) (k : nat) :
  length (NoveltyArchive.archive self) = NoveltyArchive.size self ->
  (k <= NoveltyArchive.size self)%nat ->
  Forall finite_row (NoveltyArchive.archive self) ->
  Forall finite_row descriptors ->
  NoveltyArchive.novelty sqrtQ self descriptors k
    = Some (NoveltyArchive.novelty_spec sqrtQ self descriptors k).
Proof.
  intros Hlen Hk Ha Hd. unfold NoveltyArchive.novelty, NoveltyArchive.novelty_spec.
  rewrite !map_map.
  set (row := fun x => map (NoveltyArchive.masked_distance sqrtQ self x)
                           (seq 0 (NoveltyArchive.size self))).
  assert (Hrow : forall x,
            where_ (NoveltyArchive.valid_slots self)
                   (map (fun y => NoveltyArchive.distance sqrtQ x y)
                        (NoveltyArchive.archive self)) PInf = row x)
    by (intros x; apply masked_row; exact Hlen).
  rewrite (map_ext _ _ (fun x => f_equal (fun d => top_k (map fneg d) k) (Hrow x))).
  rewrite (map_ext _ (fun x => map unmask (row x))
             (fun x => f_equal (map unmask) (Hrow x))).
  assert (Htop : forall x, In x descriptors ->
            exists vals idx,
              top_k (map fneg (row x)) k = Some (vals, idx) /\
              map (fun i => nth i (map unmask (row x)) NaN) idx
                = map unmask (NoveltyArchive.k_smallest k (row x))).
  { intros x Hx. apply top_k_takes_k_smallest.
    - apply masked_row_distance_like; auto.
      rewrite Forall_forall in Hd; auto.
    - unfold row. rewrite length_map, length_seq. exact Hk. }
  set (pick := fun x =>
         match top_k (map fneg (row x)) k with
         | Some t => t
         | None => ([], [])
         end).
  rewrite (@sequence_map_some _ _ _ pick).
  2:{ intros x Hx. destruct (Htop x Hx) as (vals & idx & E & _).
      unfold pick. rewrite E. reflexivity. }
  rewrite map_map, map2_map_both, map_map. f_equal.
  apply map_ext_in. intros x Hx.
  destruct (Htop x Hx) as (vals & idx & E & Htake).
  unfold pick. rewrite E. simpl. rewrite Htake.
  apply nanmean_unmask.
  unfold NoveltyArchive.k_smallest.
  pose proof (@masked_row_distance_like self x
                ltac:(rewrite Forall_forall in Hd; auto) Ha) as Hlike.
  fold (row x) in Hlike.
  rewrite Forall_forall in *. intros v Hv. apply Hlike.
  apply In_firstn in Hv.
  eapply Permutation_in; [apply stable_sort_perm | exact Hv].
Qed.


Lemma map_constant {A B : Type} (f : A -> B) (c : B) (l : list A) :
  (forall x, In x l -> f x = c) -> map f l = repeat c (length l).
Proof.
  induction l as [|a l IH]; intros H; simpl; auto.
  rewrite H by (left; reflexivity). f_equal. apply IH.
  intros; apply H; right; auto.
Qed.

Lemma stable_sort_masked_tail (n : nat) :
  stable_sort sort_ltb (repeat PInf n) = repeat PInf n.
Proof.
  induction n as [|n IH]; simpl; auto.
  rewrite IH. destruct n; reflexivity.
Qed.

(** On a freshly initialised archive the mask admits slot 0 only, and
    the novelty of a finite descriptor is what [distance] computes
    between the descriptor and the row of zeros of slot 0. *)
Lemma fresh_archive_novelty_is_slot0_distance :
  forall (S w k : nat) (d : Row),
    (1 <= k <= S)%nat ->
    finite_row d ->
    length d = w ->
    NoveltyArchive.novelty sqrtQ (NoveltyArchive.init S w) [d] k
      = Some [NoveltyArchive.distance sqrtQ d (repeat fzero w)] /\
    NoveltyArchive.valid_slots (NoveltyArchive.init S w)
      = true :: repeat false (S - 1).
Proof.
  intros S w k d Hk Hd Hw.
  assert (Hzero : finite_row (repeat fzero w)).
  { apply Forall_forall. intros v Hv. apply repeat_spec in Hv. subst.
    eexists; reflexivity. }
  destruct S as [|S']; [lia|].
  assert (Hslots : forall f : nat -> bool,
            (forall i, (1 <= i)%nat -> f i = false) ->
            map f (seq 1 S') = repeat false S').
  { intros f Hf. rewrite (@map_constant _ _ f false), length_seq; auto.
    intros i Hi. apply in_seq in Hi. apply Hf; lia. }
  split.
  - rewrite novelty_refines.
    + f_equal. unfold NoveltyArchive.novelty_spec; simpl. f_equal.
      unfold NoveltyArchive.masked_distance at 1; simpl.
      destruct (distance_finite Hd Hzero) as [q Hq]. rewrite Hq.
      replace (map (NoveltyArchive.masked_distance sqrtQ
                      (NoveltyArchive.init (Datatypes.S S') w) d) (seq 1 S'))
        with (repeat PInf S').
      2:{ symmetry.
          transitivity (repeat PInf (length (seq 1 S')));
            [|rewrite length_seq; reflexivity].
          apply map_constant. intros i Hi. apply in_seq in Hi.
          unfold NoveltyArchive.masked_distance; simpl.
          replace (Z.of_nat i <? 1)%Z with false; auto.
          symmetry. apply Z.ltb_ge. lia. }
      unfold NoveltyArchive.k_smallest. simpl stable_sort.
      rewrite stable_sort_masked_tail.
      replace (insert_sorted sort_ltb (Fin q) (repeat PInf S'))
        with (Fin q :: repeat PInf S') by (destruct S'; reflexivity).
      destruct k as [|k']; [lia|]. simpl firstn.
      unfold NoveltyArchive.mean_of_finite. simpl filter.
      rewrite (@filter_none _ isfinite (firstn k' (repeat PInf S')))
        by (intros y Hy; apply In_firstn in Hy; apply repeat_spec in Hy;
            subst; reflexivity).
      simpl.
      rewrite Qplus_0_l_eq.
      change (inject_Z 1) with 1. rewrite Qdiv_1_r_eq. reflexivity.
    + apply repeat_length.
    + simpl; lia.
    + apply Forall_forall. intros r Hr.
      apply repeat_spec in Hr. subst. exact Hzero.
    + repeat constructor. exact Hd.
  - unfold NoveltyArchive.valid_slots; simpl. f_equal.
    rewrite Nat.sub_0_r. apply Hslots.
    intros i Hi. apply Z.ltb_ge. lia.
Qed.

Lemma fsub_zero (x : float) : (x - fzero)%float = x.
Proof.
  destruct x; simpl; auto.
  change (- 0) with 0. rewrite Qplus_0_r_eq. reflexivity.
Qed.

Lemma map2_fsub_zeros (d : Row) :
  map2 fsub d (repeat fzero (length d)) = d.
Proof.
  induction d as [|x d IH]; simpl; auto.
  rewrite IH. f_equal. apply fsub_zero.
Qed.

(** C8.  On a freshly initialised archive the mask admits slot 0 only,
    and for every [k] between 1 and the size the novelty of a finite
    descriptor [d] is its Euclidean norm, the square root of the sum of
    the squares of its entries, which is a number.  The sum of squares
    is supposed to be within the range of the format: when it overflows
    the distance is an infinity, which [novelty] takes for a masked
    slot. *)
Theorem novelty_on_fresh_archive_is_distance_to_zero :
  forall (S w k : nat) (d : Row),
    (1 <= k <= S)%nat ->
    finite_row d ->
    length d = w ->
    in_range (fsum (map NoveltyArchive.square d)) ->
    NoveltyArchive.novelty sqrtQ (NoveltyArchive.init S w) [d] k
      = Some [NoveltyArchive.fsqrt sqrtQ (fsum (map NoveltyArchive.square d))] /\
    (exists q,
       0 <= q /\
       fsum (map NoveltyArchive.square d) = Fin q /\
       NoveltyArchive.fsqrt sqrtQ (fsum (map NoveltyArchive.square d))
         = Fin (sqrtQ q)) /\
    NoveltyArchive.valid_slots (NoveltyArchive.init S w)
      = true :: repeat false (S - 1).
Proof.
  intros S w k d Hk Hd Hw _.
  destruct (fresh_archive_novelty_is_slot0_distance Hk Hd Hw) as [Hnov Hmask].
  split; [|split; [|exact Hmask]].
  - rewrite Hnov. unfold NoveltyArchive.distance.
    rewrite <- Hw, map2_fsub_zeros. reflexivity.
  - destruct (fsum_squares_finite Hd) as (q & Hq & Hsum).
    exists q. split; [exact Hq|]. split; [exact Hsum|].
    rewrite Hsum. simpl. apply Qle_bool_iff in Hq. rewrite Hq. reflexivity.
Qed.

End NoveltyFacts.

(* ================================================================== *)
(** ** The theorems at sample inputs *)

Lemma es_gradient_refines_spec_witness :
  VanillaESEmitter.es_gradient Samples.emitter 2 Samples.parent Samples.noise
    [Fin 1; Fin (-1)]
  = map2 (VanillaESEmitter.gradient_leaf_spec Samples.emitter [Fin 1; Fin (-1)])
         Samples.noise Samples.parent.
Proof.
  apply (@es_gradient_refines_spec nat unit unit Samples.emitter Samples.parent
           Samples.noise [Fin 1; Fin (-1)]).
  - vm_compute; lia.
  - reflexivity.
  - constructor; [|constructor].
    exists [2%nat]. repeat split; reflexivity.
Defined.


Lemma mirrored_noise_is_antithetic_witness :
  let sample_noise :=
    fst (VanillaESEmitter.sample_noises Samples.normal Samples.emitter
           Samples.parent 13%nat) in
  nth 1 (rows (nth 0 sample_noise (mk_ndarray [] []))) []
    = map fneg (nth 0 (rows (nth 0 sample_noise (mk_ndarray [] []))) []) /\
  nth 3 (rows (nth 0 sample_noise (mk_ndarray [] []))) []
    = map fneg (nth 2 (rows (nth 0 sample_noise (mk_ndarray [] []))) []).
Proof.
  destruct (@mirrored_noise_is_antithetic nat unit unit Samples.normal
              Samples.emitter Samples.parent 13%nat)
    as (_ & _ & H).
  - reflexivity.
  - exists 2%nat; reflexivity.
  - destruct (H 0%nat (mk_ndarray [] []) ltac:(simpl; lia)) as (_ & _ & _ & Hrows).
    split.
    + exact (proj1 (Hrows 0%nat ltac:(vm_compute; lia))).
    + exact (proj1 (Hrows 1%nat ltac:(vm_compute; lia))).
Defined.

Lemma rank_normalisation_is_centered_rank_witness :
  fleb (Fin (- (1 # 2)))
       (nth 1 (VanillaESEmitter.rank_transform Samples.emitter
                 (Samples.vec [3; 1; 2; 1]%Z)) NaN) = true /\
  fltb (nth 2 (VanillaESEmitter.rank_transform Samples.emitter
                 (Samples.vec [3; 1; 2; 1]%Z)) NaN)
       (nth 0 (VanillaESEmitter.rank_transform Samples.emitter
                 (Samples.vec [3; 1; 2; 1]%Z)) NaN) = true.
Proof.
  destruct (@rank_normalisation_is_centered_rank nat unit unit Samples.emitter
              (Samples.vec [3; 1; 2; 1]%Z))
    as (_ & Hbounds & Hmono).
  - reflexivity.
  - reflexivity.
  - vm_compute; lia.
  - split.
    + exact (proj1 (Hbounds 1%nat ltac:(vm_compute; lia))).
    + exact (proj1 (Hmono 0%nat 2%nat ltac:(vm_compute; lia)
                      ltac:(vm_compute; lia) eq_refl)).
Defined.

(** C5 at a single sample: the rank 0 is divided by [N - 1 = 0], the
    weight is NaN and lies in no interval. *)
Lemma rank_normalisation_single_sample_counterexample :
  sample_rank_norm (VanillaESEmitter._config Samples.emitter1) = true /\
  length [Fin 3] = VanillaESEmitter.total_sample_number Samples.emitter1 /\
  VanillaESEmitter.rank_transform Samples.emitter1 [Fin 3] = [NaN] /\
  fleb (Fin (- (1 # 2)))
       (nth 0 (VanillaESEmitter.rank_transform Samples.emitter1 [Fin 3]) NaN)
    = false.
Proof.
  repeat split; reflexivity.
Qed.

Lemma state_update_requires_batch_of_one_witness :
  VanillaESEmitter.state_update Samples.split Samples.normal Samples.sqrt_sample
    Samples.emitter Samples.state0 tt Samples.batch [Fin 0]
    (Samples.matrix [[0; 0]]%Z) tt
  = Err (InvalidBatchSize 2).
Proof.
  destruct (@state_update_requires_batch_of_one nat unit unit unit Samples.split
              Samples.normal Samples.sqrt_sample Samples.emitter Samples.state0
              tt Samples.batch [Fin 0] (Samples.matrix [[0; 0]]%Z) tt 2%nat)
    as (Hfail & _ & _).
  - reflexivity.
  - apply Hfail. discriminate.
Defined.

Lemma novelty_on_fresh_archive_is_distance_to_zero_witness :
  NoveltyArchive.novelty Samples.sqrt_sample (NoveltyArchive.init 3 2)
    [Samples.vec [3; 4]%Z] 2
  = Some [Fin 5].
Proof.
  destruct (@novelty_on_fresh_archive_is_distance_to_zero Samples.sqrt_sample
              3 2 2 (Samples.vec [3; 4]%Z)) as [H _].
  - lia.
  - repeat constructor; eexists; reflexivity.
  - reflexivity.
  - exists 25. split; [reflexivity|].
    split; unfold Qle; vm_compute; discriminate.
  - exact H.
Defined.

Lemma init_keeps_or_slices_batch_witness :
  exists st,
    VanillaESEmitter.init Samples.emitter Samples.batch 3%nat = Ok (st, 3%nat) /\
    VanillaESEmitter.offspring st
      = [mk_ndarray [2]%nat (Samples.vec [0; 5]%Z);
         mk_ndarray [1; 1]%nat (Samples.vec [7]%Z)].
Proof.
  destruct (@init_keeps_or_slices_batch nat unit unit Samples.emitter
              Samples.batch 3%nat 2%nat)
    as (Hslice & _).
  - reflexivity.
  - destruct Hslice as (Hinit & _).
    + lia.
    + repeat constructor.
    + eexists. split; [exact Hinit | reflexivity].
Defined.

(* ================================================================== *)
(** * Further properties of the archive *)

Lemma mask_prefix (s m r : nat) :
  map (fun i => (Z.of_nat i <? Z.of_nat (s + m))%Z) (seq s (m + r))
    = repeat true m ++ repeat false r.
Proof.
  revert s; induction m as [|m IH]; intros s; simpl.
  - transitivity (repeat false (length (seq s r)));
      [|rewrite length_seq; reflexivity].
    apply map_constant. intros i Hi. apply in_seq in Hi.
    apply Z.ltb_ge. lia.
  - f_equal.
    + apply Z.ltb_lt. lia.
    + rewrite <- (IH (S s)). apply map_ext. intros i.
      do 2 f_equal. lia.
Qed.

(** X1.  [update] keeps an archive well formed: with a descriptor of
    [r] rows ([1 <= r <= size]) of the archive's width, the new archive
    has the same size, as many rows as its size, rows of the same width,
    and a cursor in [0, size). *)
Theorem update_preserves_well_formed :
  forall (w : nat) (self : NoveltyArchive.t) (descriptor : Descriptor),
    length (NoveltyArchive.archive self) = NoveltyArchive.size self ->
    (0 <= NoveltyArchive.position self < Z.of_nat (NoveltyArchive.size self))%Z ->
    Forall (fun r => length r = w) (NoveltyArchive.archive self) ->
    Forall (fun r => length r = w) descriptor ->
    (1 <= length descriptor <= NoveltyArchive.size self)%nat ->
    exists new,
      NoveltyArchive.update self descriptor = Some new /\
      NoveltyArchive.size new = NoveltyArchive.size self /\
      length (NoveltyArchive.archive new) = NoveltyArchive.size new /\
      Forall (fun r => length r = w) (NoveltyArchive.archive new) /\
      (0 <= NoveltyArchive.position new < Z.of_nat (NoveltyArchive.size new))%Z.
Proof.
  intros w self descriptor Hlen Hp Ha Hd Hr.
  destruct (@ArchiveFacts.update_rows w self descriptor)
    as (new & Hnew & Hsz & Hpos & Hlen' & Hw & _); auto; try lia.
  exists new. repeat split; auto; try lia.
  - rewrite Hpos. apply Z.mod_pos_bound. lia.
  - rewrite Hpos, Hsz. apply Z.mod_pos_bound. lia.
Qed.

Lemma update_preserves_well_formed_witness :
  exists new,
    NoveltyArchive.update Samples.written (Samples.matrix [[1; 2]]%Z) = Some new /\
    length (NoveltyArchive.archive new) = 3%nat /\
    (0 <= NoveltyArchive.position new < 3)%Z.
Proof.
  destruct (@update_preserves_well_formed 2 Samples.written
              (Samples.matrix [[1; 2]]%Z))
    as (new & Hnew & Hsz & Hlen & _ & Hpos).
  - reflexivity.
  - simpl; lia.
  - repeat constructor.
  - repeat constructor.
  - simpl; lia.
  - exists new. rewrite Hsz in Hlen, Hpos.
    split; [exact Hnew|]. split; [exact Hlen | exact Hpos].
Defined.

(** X2.  The mask of [novelty] after [n] single-row writes into a fresh
    archive of size [S]: the first [n mod S + 1] slots are admitted and
    the others are not.  Before the first wrap this admits the [n]
    written slots and one slot never written; after exactly [S] writes
    it admits slot 0 only. *)
Theorem mask_after_writes :
  forall (S w : nat) (ds : list Row),
    (1 <= S)%nat ->
    Forall (fun r => length r = w) ds ->
    exists a,
      NoveltyArchive.update_each (NoveltyArchive.init S w) ds = Some a /\
      NoveltyArchive.valid_slots a
        = repeat true (length ds mod S + 1)
          ++ repeat false (S - (length ds mod S + 1)) /\
      (length ds = S ->
       NoveltyArchive.valid_slots a = true :: repeat false (S - 1)).
Proof.
  intros S w ds HS Hw.
  destruct (@ArchiveFacts.update_each_init S w ds HS Hw)
    as (a & Ha & Hsz & _ & _ & Hpos & _).
  assert (Hm : (length ds mod S < S)%nat) by (apply Nat.mod_upper_bound; lia).
  assert (Hmask : NoveltyArchive.valid_slots a
                  = repeat true (length ds mod S + 1)
                    ++ repeat false (S - (length ds mod S + 1))).
  { unfold NoveltyArchive.valid_slots. rewrite Hsz, Hpos.
    rewrite <- (mask_prefix 0 (length ds mod S + 1) (S - (length ds mod S + 1))).
    replace (length ds mod S + 1 + (S - (length ds mod S + 1)))%nat with S by lia.
    apply map_ext. intros i. f_equal. lia. }
  exists a. split; [exact Ha|]. split; [exact Hmask|].
  intros Hfull. rewrite Hmask, Hfull, Nat.Div0.mod_same. reflexivity.
Qed.

Lemma mask_after_writes_witness :
  exists a,
    NoveltyArchive.update_each (NoveltyArchive.init 3 1)
      (Samples.matrix [[1]; [2]; [3]]%Z) = Some a /\
    NoveltyArchive.valid_slots a = [true; false; false].
Proof.
  destruct (@mask_after_writes 3 1 (Samples.matrix [[1]; [2]; [3]]%Z))
    as (a & Ha & _ & Hfull).
  - lia.
  - repeat constructor.
  - exists a. split; [exact Ha | exact (Hfull eq_refl)].
Defined.

(* ================================================================== *)
(** * Further properties of the novelty score *)

Section PlainSortFacts.

Variable A : Type.
Variable lt : A -> A -> bool.

Hypothesis lt_asym : forall a b, lt a b = true -> lt b a = false.
Hypothesis lt_incomparable_trans :
  forall a b c, lt a b = false -> lt b c = false -> lt a c = false.

Lemma insert_sorted_keeps_sorted (x : A) (l : list A) :
  StronglySorted (fun a b => lt b a = false) l ->
  StronglySorted (fun a b => lt b a = false) (insert_sorted lt x l).
Proof.
  induction 1 as [|y t Hs IH Hy]; simpl.
  - repeat constructor.
  - destruct (lt y x) eqn:E.
    + constructor; auto.
      rewrite Forall_forall in *. intros z Hz.
      apply (Permutation_in _ (insert_sorted_perm lt x t)) in Hz.
      destruct Hz as [<-|Hz]; auto.
    + constructor; [constructor; auto|].
      constructor; auto.
      rewrite Forall_forall in *. intros z Hz.
      eapply lt_incomparable_trans; eauto.
Qed.

Lemma stable_sort_sorted (l : list A) :
  StronglySorted (fun a b => lt b a = false) (stable_sort lt l).
Proof.
  induction l as [|x l IH]; simpl.
  - constructor.
  - apply insert_sorted_keeps_sorted; exact IH.
Qed.

End PlainSortFacts.

Lemma sort_ltb_asym (a b : float) : sort_ltb a b = true -> sort_ltb b a = false.
Proof.
  apply (lt_asym sort_ltb sort_ltb_irrefl sort_ltb_trans).
Qed.

(** The smallest entry of a row that holds a number is a number of the
    row, and no entry is before it. *)
Lemma sorted_row_head (l : list float) (q0 : Q) :
  Forall distance_like l ->
  In (Fin q0) l ->
  exists qh t,
    stable_sort sort_ltb l = Fin qh :: t /\
    In (Fin qh) l /\
    forall v, In v l -> sort_ltb v (Fin qh) = false.
Proof.
  intros Hl Hin.
  pose proof (stable_sort_perm sort_ltb l) as Hperm.
  pose proof (stable_sort_sorted sort_ltb sort_ltb_asym
                sort_ltb_incomparable_trans l) as Hs.
  destruct (stable_sort sort_ltb l) as [|h t] eqn:E.
  - apply Permutation_nil in Hperm. subst. contradiction.
  - inversion Hs as [|? ? _ Hh]; subst.
    rewrite Forall_forall in Hh, Hl.
    assert (Hhl : In h l) by (eapply Permutation_in; [exact Hperm | left; auto]).
    assert (Hq0 : In (Fin q0) (h :: t))
      by (eapply Permutation_in; [apply Permutation_sym; exact Hperm | exact Hin]).
    destruct (Hl h Hhl) as [->|[qh ->]].
    + exfalso. destruct Hq0 as [Hq0|Hq0]; [discriminate|].
      apply Hh in Hq0. simpl in Hq0. discriminate.
    + exists qh, t. split; [reflexivity|]. split; [exact Hhl|].
      intros v Hv.
      apply (Permutation_in _ (Permutation_sym Hperm)) in Hv.
      destruct Hv as [<-|Hv]; [apply sort_ltb_irrefl | apply Hh; exact Hv].
Qed.

Lemma fsum_finite_from (vs : list float) (acc : Q) :
  exists q, fold_left fadd (filter isfinite vs) (Fin acc) = Fin q.
Proof.
  revert acc; induction vs as [|v vs IH]; intros acc; simpl.
  - eexists; reflexivity.
  - destruct v; simpl; auto.
Qed.

Lemma mean_of_finite_is_number (vs : list float) (q0 : Q) :
  In (Fin q0) vs ->
  exists q, NoveltyArchive.mean_of_finite vs = Fin q.
Proof.
  intros Hin. unfold NoveltyArchive.mean_of_finite, fsum, fzero.
  destruct (fsum_finite_from vs 0) as [s ->].
  assert (Hf : In (Fin q0) (filter isfinite vs)) by (apply filter_In; auto).
  destruct (filter isfinite vs) as [|f fs]; [contradiction|].
  unfold of_nat, of_Z, fdiv.
  assert (E : Qeq_bool (inject_Z (Z.of_nat (length (f :: fs)))) 0 = false)
    by reflexivity.
  rewrite E. eexists; reflexivity.
Qed.

Section NoveltyMoreFacts.

Variable sqrtQ : Q -> Q.

(** The row of masked distances of a finite query holds the distance to
    slot 0 as soon as the cursor is not negative. *)
Lemma masked_row_holds_slot0 (self : NoveltyArchive.t) (x : Row) :
  (1 <= NoveltyArchive.size self)%nat ->
  (0 <= NoveltyArchive.position self)%Z ->
  finite_row x ->
  Forall finite_row (NoveltyArchive.archive self) ->
  exists q0,
    In (Fin q0) (map (NoveltyArchive.masked_distance sqrtQ self x)
                     (seq 0 (NoveltyArchive.size self))).
Proof.
  intros HS Hp Hx Ha.
  assert (Hslot : finite_row (nth 0 (NoveltyArchive.archive self) [])).
  { destruct (NoveltyArchive.archive self) as [|r rs]; simpl.
    - constructor.
    - inversion Ha; auto. }
  destruct (distance_finite sqrtQ Hx Hslot) as [q0 Hq0].
  exists q0. apply in_map_iff. exists 0%nat. split.
  - unfold NoveltyArchive.masked_distance.
    replace (Z.of_nat 0 <? NoveltyArchive.position self + 1)%Z with true
      by (symmetry; apply Z.ltb_lt; lia).
    exact Hq0.
  - apply in_seq. lia.
Qed.

(** X3.  With at least one neighbour asked for ([1 <= k <= size]), a
    cursor that is not negative, a batch that is not empty and finite
    descriptors of the archive's width, [novelty] returns one score per
    query and no score is NaN, provided the sum of squares behind the
    distance of each query to slot 0 is within the range of the format:
    slot 0 is always admitted by the mask, so that a number is always
    among the values that are averaged. *)
Theorem novelty_is_never_nan :
  forall (w : nat) (self : NoveltyArchive.t) (descriptors : Descriptor)
         (k : nat),
    length (NoveltyArchive.archive self) = NoveltyArchive.size self ->
    (1 <= k <= NoveltyArchive.size self)%nat ->
    (0 <= NoveltyArchive.position self)%Z ->
    Forall finite_row (NoveltyArchive.archive self) ->
    Forall (fun r => length r = w) (NoveltyArchive.archive self) ->
    descriptors <> [] ->
    Forall finite_row descriptors ->
    Forall (fun r => length r = w) descriptors ->
    (forall x, In x descriptors ->
       in_range (fsum (map NoveltyArchive.square
                         (map2 fsub x (nth 0 (NoveltyArchive.archive self) []))))) ->
    exists scores,
      NoveltyArchive.novelty sqrtQ self descriptors k = Some scores /\
      length scores = length descriptors /\
      Forall (fun v => isnan v = false) scores.
Proof.
  intros w self descriptors k Hlen Hk Hp Ha _ _ Hd _ _.
  rewrite (novelty_refines sqrtQ); auto; try lia.
  eexists. split; [reflexivity|].
  unfold NoveltyArchive.novelty_spec. split; [apply length_map|].
  apply Forall_forall. intros v Hv. apply in_map_iff in Hv.
  destruct Hv as (x & <- & Hx).
  assert (Hfx : finite_row x) by (rewrite Forall_forall in Hd; auto).
  destruct (@masked_row_holds_slot0 self x ltac:(lia) Hp Hfx Ha) as [q0 Hq0].
  destruct (@sorted_row_head _ _ (masked_row_distance_like sqrtQ self Hfx Ha) Hq0)
    as (qh & t & Hsort & _ & _).
  unfold NoveltyArchive.k_smallest. rewrite Hsort.
  destruct k as [|k']; [lia|]. simpl firstn.
  destruct (@mean_of_finite_is_number (Fin qh :: firstn k' t) qh
              ltac:(left; reflexivity)) as [q ->].
  reflexivity.
Qed.

(** X4.  With one neighbour, the novelty of a finite query of the
    archive's width is its distance to a nearest admitted slot: it is
    the distance to some slot below [position + 1], and no admitted
    slot is closer.  The sums of squares behind the distances to the
    admitted slots are supposed to be within the range of the format. *)
Theorem novelty_one_neighbour_is_nearest :
  forall (w : nat) (self : NoveltyArchive.t) (x : Row),
    length (NoveltyArchive.archive self) = NoveltyArchive.size self ->
    (1 <= NoveltyArchive.size self)%nat ->
    (0 <= NoveltyArchive.position self)%Z ->
    Forall finite_row (NoveltyArchive.archive self) ->
    Forall (fun r => length r = w) (NoveltyArchive.archive self) ->
    finite_row x ->
    length x = w ->
    (forall j, (j < NoveltyArchive.size self)%nat ->
       (Z.of_nat j < NoveltyArchive.position self + 1)%Z ->
       in_range (fsum (map NoveltyArchive.square
                         (map2 fsub x (nth j (NoveltyArchive.archive self) []))))) ->
    exists (q : Q) (i : nat),
      NoveltyArchive.novelty sqrtQ self [x] 1 = Some [Fin q] /\
      (i < NoveltyArchive.size self)%nat /\
      (Z.of_nat i < NoveltyArchive.position self + 1)%Z /\
      NoveltyArchive.distance sqrtQ x (nth i (NoveltyArchive.archive self) [])
        = Fin q /\
      forall j, (j < NoveltyArchive.size self)%nat ->
        (Z.of_nat j < NoveltyArchive.position self + 1)%Z ->
        fleb (Fin q)
             (NoveltyArchive.distance sqrtQ x
                (nth j (NoveltyArchive.archive self) [])) = true.
Proof.
  intros w self x Hlen HS Hp Ha _ Hx _ _.
  destruct (@masked_row_holds_slot0 self x HS Hp Hx Ha) as [q0 Hq0].
  destruct (@sorted_row_head _ _ (masked_row_distance_like sqrtQ self Hx Ha) Hq0)
    as (qh & t & Hsort & Hin & Hmin).
  apply in_map_iff in Hin. destruct Hin as (i & Hi & Hseq).
  apply in_seq in Hseq.
  unfold NoveltyArchive.masked_distance in Hi.
  destruct (Z.ltb_spec (Z.of_nat i) (NoveltyArchive.position self + 1))
    as [Hadm|Hadm]; [|discriminate].
  exists qh, i. split; [|split; [lia|split; [exact Hadm|split; [exact Hi|]]]].
  - rewrite (@novelty_refines sqrtQ self [x] 1 Hlen HS Ha
               (Forall_cons x Hx (Forall_nil finite_row))).
    unfold NoveltyArchive.novelty_spec, NoveltyArchive.k_smallest; simpl map.
    rewrite Hsort. simpl.
    unfold NoveltyArchive.mean_of_finite; simpl.
    rewrite Qplus_0_l_eq. change (inject_Z 1) with 1.
    rewrite Qdiv_1_r_eq. reflexivity.
  - intros j Hj Hjadm.
    assert (Hslot : finite_row (nth j (NoveltyArchive.archive self) [])).
    { rewrite Forall_forall in Ha. apply Ha, nth_In. lia. }
    destruct (distance_finite sqrtQ Hx Hslot) as [qj Hqj].
    rewrite Hqj. apply fleb_Fin.
    assert (Hv : sort_ltb (Fin qj) (Fin qh) = false).
    { apply Hmin. apply in_map_iff. exists j. split.
      - unfold NoveltyArchive.masked_distance.
        replace (Z.of_nat j <? NoveltyArchive.position self + 1)%Z with true
          by (symmetry; apply Z.ltb_lt; exact Hjadm).
        exact Hqj.
      - apply in_seq. lia. }
    simpl in Hv. apply Qltb_false in Hv. exact Hv.
Qed.

(** X5.  The slots that the mask does not admit never contribute: two
    archives of the same size and cursor that hold the same descriptors
    in the slots below [position + 1] give the same novelty. *)
Theorem novelty_ignores_masked_slots :
  forall (a1 a2 : NoveltyArchive.t) (descriptors : Descriptor) (k : nat),
    NoveltyArchive.size a1 = NoveltyArchive.size a2 ->
    NoveltyArchive.position a1 = NoveltyArchive.position a2 ->
    length (NoveltyArchive.archive a1) = NoveltyArchive.size a1 ->
    length (NoveltyArchive.archive a2) = NoveltyArchive.size a2 ->
    (k <= NoveltyArchive.size a1)%nat ->
    Forall finite_row (NoveltyArchive.archive a1) ->
    Forall finite_row (NoveltyArchive.archive a2) ->
    Forall finite_row descriptors ->
    (forall i, (Z.of_nat i < NoveltyArchive.position a1 + 1)%Z ->
       nth i (NoveltyArchive.archive a1) []
         = nth i (NoveltyArchive.archive a2) []) ->
    NoveltyArchive.novelty sqrtQ a1 descriptors k
      = NoveltyArchive.novelty sqrtQ a2 descriptors k.
Proof.
  intros a1 a2 descriptors k Hsz Hpos Hl1 Hl2 Hk Hf1 Hf2 Hd Hsame.
  rewrite !(novelty_refines sqrtQ); auto; try lia.
  f_equal. unfold NoveltyArchive.novelty_spec.
  apply map_ext. intros x. rewrite <- Hsz. do 2 f_equal.
  apply map_ext. intros i. unfold NoveltyArchive.masked_distance.
  rewrite <- Hpos.
  destruct (Z.ltb_spec (Z.of_nat i) (NoveltyArchive.position a1 + 1)); auto.
  rewrite Hsame by assumption. reflexivity.
Qed.

End NoveltyMoreFacts.

Lemma novelty_is_never_nan_witness :
  exists scores,
    NoveltyArchive.novelty Samples.sqrt_sample Samples.written
      (Samples.matrix [[0; 0]; [3; 4]]%Z) 3 = Some scores /\
    length scores = 2%nat /\
    Forall (fun v => isnan v = false) scores.
Proof.
  apply (@novelty_is_never_nan Samples.sqrt_sample 2 Samples.written
           (Samples.matrix [[0; 0]; [3; 4]]%Z) 3).
  - reflexivity.
  - simpl; lia.
  - simpl; lia.
  - repeat constructor; eexists; reflexivity.
  - repeat constructor.
  - discriminate.
  - repeat constructor; eexists; reflexivity.
  - repeat constructor.
  - intros x [<-|[<-|[]]]; eexists;
      (split; [vm_compute; reflexivity|]);
      split; unfold Qle; vm_compute; discriminate.
Defined.

Lemma novelty_one_neighbour_is_nearest_witness :
  exists (q : Q) (i : nat),
    NoveltyArchive.novelty Samples.sqrt_sample Samples.written
      [Samples.vec [3; 4]%Z] 1 = Some [Fin q] /\
    (i < 3)%nat /\
    fleb (Fin q)
         (NoveltyArchive.distance Samples.sqrt_sample (Samples.vec [3; 4]%Z)
            (Samples.vec [6; 8]%Z)) = true.
Proof.
  destruct (@novelty_one_neighbour_is_nearest Samples.sqrt_sample 2
              Samples.written (Samples.vec [3; 4]%Z))
    as (q & i & Hn & Hi & _ & _ & Hmin).
  - reflexivity.
  - simpl; lia.
  - simpl; lia.
  - repeat constructor; eexists; reflexivity.
  - repeat constructor.
  - repeat constructor; eexists; reflexivity.
  - reflexivity.
  - intros [|[|[|j]]] Hj _; [| | |simpl in Hj; lia]; eexists;
      (split; [vm_compute; reflexivity|]);
      split; unfold Qle; vm_compute; discriminate.
  - exists q, i. split; [exact Hn|]. split; [exact Hi|].
    exact (Hmin 1%nat ltac:(simpl; lia) ltac:(simpl; lia)).
Defined.

Lemma novelty_ignores_masked_slots_witness :
  NoveltyArchive.novelty Samples.sqrt_sample
    (NoveltyArchive.mk (Samples.matrix [[3; 4]; [6; 8]; [0; 0]]%Z) 3 0)
    [Samples.vec [0; 0]%Z] 2
  = NoveltyArchive.novelty Samples.sqrt_sample
      (NoveltyArchive.mk (Samples.matrix [[3; 4]; [1; 1]; [5; 5]]%Z) 3 0)
      [Samples.vec [0; 0]%Z] 2.
Proof.
  apply novelty_ignores_masked_slots.
  - reflexivity.
  - reflexivity.
  - reflexivity.
  - reflexivity.
  - simpl; lia.
  - repeat constructor; eexists; reflexivity.
  - repeat constructor; eexists; reflexivity.
  - repeat constructor; eexists; reflexivity.
  - intros i Hi. simpl in Hi.
    assert (i = 0%nat) by lia. subst. reflexivity.
Defined.

(* ================================================================== *)
(** * Further properties of the emitter *)

Section RankMoreFacts.

Variables RNGKey OptState ExtraScores : Type.

Local Abbreviation Emitter := (VanillaESEmitter.Emitter RNGKey OptState ExtraScores).

(** The weights of rank normalisation, entry by entry. *)
Lemma rank_transform_entries (self : Emitter) (scores : list float) :
  sample_rank_norm (VanillaESEmitter._config self) = true ->
  length scores = VanillaESEmitter.total_sample_number self ->
  (2 <= VanillaESEmitter.total_sample_number self)%nat ->
  VanillaESEmitter.rank_transform self scores =
    map (fun i => Fin (VanillaESEmitter.centered_rank
                         (VanillaESEmitter.total_sample_number self)
                         (stable_rank sort_ltb NaN scores i)))
        (seq 0 (VanillaESEmitter.total_sample_number self)).
Proof.
  intros Hnorm Hlen HN.
  unfold VanillaESEmitter.rank_transform. rewrite Hnorm.
  rewrite (double_argsort_ranks sort_ltb NaN scores sort_ltb_irrefl
             sort_ltb_trans sort_ltb_incomparable_trans).
  rewrite map_map, Hlen.
  apply map_ext. intros i. apply rank_weight_value. exact HN.
Qed.

Lemma rank_transform_nth (self : Emitter) (scores : list float) (i : nat) :
  sample_rank_norm (VanillaESEmitter._config self) = true ->
  length scores = VanillaESEmitter.total_sample_number self ->
  (2 <= VanillaESEmitter.total_sample_number self)%nat ->
  (i < VanillaESEmitter.total_sample_number self)%nat ->
  nth i (VanillaESEmitter.rank_transform self scores) NaN
    = Fin (VanillaESEmitter.centered_rank
             (VanillaESEmitter.total_sample_number self)
             (stable_rank sort_ltb NaN scores i)).
Proof.
  intros Hnorm Hlen HN Hi.
  rewrite rank_transform_entries by assumption.
  set (f := fun i => Fin (VanillaESEmitter.centered_rank
                            (VanillaESEmitter.total_sample_number self)
                            (stable_rank sort_ltb NaN scores i))).
  rewrite (nth_indep _ NaN (f 0%nat)) by (rewrite length_map, length_seq; exact Hi).
  rewrite (map_nth f), seq_nth by exact Hi. reflexivity.
Qed.

(** X7.  Under rank normalisation with [N >= 2] scores, the weights are
    a rearrangement of the fixed grid [r/(N-1) - 0.5], [r = 0 .. N-1]:
    which weights are handed out does not depend on the scores, only
    who gets which. *)
Theorem rank_weights_permute_grid :
  forall (self : Emitter) (scores : list float),
    sample_rank_norm (VanillaESEmitter._config self) = true ->
    length scores = VanillaESEmitter.total_sample_number self ->
    (2 <= VanillaESEmitter.total_sample_number self)%nat ->
    Permutation
      (VanillaESEmitter.rank_transform self scores)
      (map (fun r => Fin (VanillaESEmitter.centered_rank
                            (VanillaESEmitter.total_sample_number self) r))
           (seq 0 (VanillaESEmitter.total_sample_number self))).
Proof.
  intros self scores Hnorm Hlen HN.
  unfold VanillaESEmitter.rank_transform. rewrite Hnorm.
  rewrite (map_ext _ (fun r => Fin (VanillaESEmitter.centered_rank
                                      (VanillaESEmitter.total_sample_number self) r))
             (fun r => rank_weight_value r HN)).
  apply Permutation_map.
  rewrite <- Hlen, <- (argsort_length sort_ltb scores).
  apply argsort_perm.
Qed.

(** The weights after the pairing of mirrored samples, entry by entry. *)
Lemma pair_ranks_entries (self : Emitter) (h : nat) (ranks : list float) (i : nat) :
  sample_mirror (VanillaESEmitter._config self) = true ->
  (i < h)%nat ->
  nth i (VanillaESEmitter.pair_ranks self h ranks) NaN
    = (nth (2 * i) ranks NaN - nth (2 * i + 1) ranks NaN)%float.
Proof.
  intros Hm Hi. unfold VanillaESEmitter.pair_ranks. rewrite Hm.
  set (g := fun rank : list float => (nth 0 rank NaN - nth 1 rank NaN)%float).
  change NaN with (g []) at 1.
  rewrite (map_nth g), (nth_chunks 2 ranks Hi).
  unfold g. rewrite !nth_firstn, !nth_skipn.
  change (0 <? 2)%nat with true. change (1 <? 2)%nat with true. cbv iota.
  replace (i * 2 + 0)%nat with (2 * i)%nat by lia.
  replace (i * 2 + 1)%nat with (2 * i + 1)%nat by lia.
  reflexivity.
Qed.

(** X8.  Under mirroring the [2h] rank-weights are reduced to [h]: entry
    [i] is the weight of sample [2i] minus the weight of sample [2i+1],
    the positive perturbation minus its negation. *)
Theorem pair_ranks_takes_differences :
  forall (self : Emitter) (h : nat) (ranks : list float),
    sample_mirror (VanillaESEmitter._config self) = true ->
    length ranks = (2 * h)%nat ->
    length (VanillaESEmitter.pair_ranks self h ranks) = h /\
    forall i, (i < h)%nat ->
      nth i (VanillaESEmitter.pair_ranks self h ranks) NaN
        = (nth (2 * i) ranks NaN - nth (2 * i + 1) ranks NaN)%float.
Proof.
  intros self h ranks Hm Hlen. split.
  - unfold VanillaESEmitter.pair_ranks. rewrite Hm, length_map.
    apply chunks_length.
  - intros i Hi. apply pair_ranks_entries; assumption.
Qed.

(** X9.  Under mirroring and rank normalisation with [N = 2h >= 2]
    scores, the weight of every antithetic pair is a number between -1
    and 1 and is never zero: the two samples of a pair never get the
    same rank. *)
Theorem paired_rank_weights_bounded_nonzero :
  forall (self : Emitter) (h : nat) (scores : list float),
    sample_mirror (VanillaESEmitter._config self) = true ->
    sample_rank_norm (VanillaESEmitter._config self) = true ->
    VanillaESEmitter.total_sample_number self = (2 * h)%nat ->
    length scores = (2 * h)%nat ->
    forall i, (i < h)%nat ->
      exists q,
        nth i (VanillaESEmitter.pair_ranks self h
                 (VanillaESEmitter.rank_transform self scores)) NaN = Fin q /\
        - (1) <= q <= 1 /\
        ~ q == 0.
Proof.
  intros self h scores Hm Hnorm HN Hlen i Hi.
  assert (HN2 : (2 <= VanillaESEmitter.total_sample_number self)%nat) by lia.
  assert (Hl : length scores = VanillaESEmitter.total_sample_number self) by lia.
  rewrite pair_ranks_entries by assumption.
  rewrite !rank_transform_nth by (auto; lia).
  set (N := VanillaESEmitter.total_sample_number self) in *.
  set (r0 := stable_rank sort_ltb NaN scores (2 * i)).
  set (r1 := stable_rank sort_ltb NaN scores (2 * i + 1)).
  destruct (@argsort_at_stable_rank float sort_ltb NaN sort_ltb_irrefl
              sort_ltb_trans sort_ltb_incomparable_trans scores (2 * i)
              ltac:(lia)) as [Hr0 Hn0].
  destruct (@argsort_at_stable_rank float sort_ltb NaN sort_ltb_irrefl
              sort_ltb_trans sort_ltb_incomparable_trans scores (2 * i + 1)
              ltac:(lia)) as [Hr1 Hn1].
  fold r0 in Hr0, Hn0. fold r1 in Hr1, Hn1.
  assert (Hne : r0 <> r1) by (intros Heq; rewrite Heq in Hn0; lia).
  pose proof (@centered_rank_bounds N r0 HN2 ltac:(lia)) as Hb0.
  pose proof (@centered_rank_bounds N r1 HN2 ltac:(lia)) as Hb1.
  eexists. split; [reflexivity|]. split; [lra|].
  destruct (Nat.lt_trichotomy r0 r1) as [Hlt|[Heq|Hgt]]; [|contradiction|].
  - pose proof (@centered_rank_strict N r0 r1 HN2 Hlt). lra.
  - pose proof (@centered_rank_strict N r1 r0 HN2 Hgt). lra.
Qed.

End RankMoreFacts.

Lemma rank_weights_permute_grid_witness :
  Permutation
    (VanillaESEmitter.rank_transform Samples.emitter (Samples.vec [3; 1; 2; 1]%Z))
    (map (fun r => Fin (VanillaESEmitter.centered_rank 4 r)) (seq 0 4)).
Proof.
  apply (@rank_weights_permute_grid nat unit unit Samples.emitter
           (Samples.vec [3; 1; 2; 1]%Z)).
  - reflexivity.
  - reflexivity.
  - vm_compute; lia.
Defined.

Lemma pair_ranks_takes_differences_witness :
  nth 1 (VanillaESEmitter.pair_ranks Samples.emitter 2
           (Samples.vec [3; 1; 2; 5]%Z)) NaN
  = (Fin 2 - Fin 5)%float.
Proof.
  destruct (@pair_ranks_takes_differences nat unit unit Samples.emitter 2
              (Samples.vec [3; 1; 2; 5]%Z)) as [_ H].
  - reflexivity.
  - reflexivity.
  - exact (H 1%nat ltac:(lia)).
Defined.

Lemma paired_rank_weights_bounded_nonzero_witness :
  exists q,
    nth 0 (VanillaESEmitter.pair_ranks Samples.emitter 2
             (VanillaESEmitter.rank_transform Samples.emitter
                (Samples.vec [3; 1; 2; 1]%Z))) NaN = Fin q /\
    - (1) <= q <= 1 /\
    ~ q == 0.
Proof.
  apply (@paired_rank_weights_bounded_nonzero nat unit unit Samples.emitter 2
           (Samples.vec [3; 1; 2; 1]%Z)).
  - reflexivity.
  - reflexivity.
  - reflexivity.
  - reflexivity.
  - lia.
Defined.

(* ================================================================== *)
(** * Further properties of the sampling *)

Lemma chunks_replicated {A B C : Type} (f : A -> B -> C) (n : nat)
    (p : list A) (e : list B) :
  chunks n (length p) (map2 f (concat (repeat p n)) e)
    = map (map2 f p) (chunks n (length p) e).
Proof.
  revert e; induction n as [|n IH]; intros e; simpl; auto.
  rewrite firstn_map2, skipn_map2.
  rewrite firstn_app, Nat.sub_diag, firstn_O, app_nil_r, firstn_all.
  rewrite skipn_app, Nat.sub_diag, skipn_O, skipn_all. simpl.
  f_equal. apply IH.
Qed.

Section SamplingMoreFacts.

Variables RNGKey OptState ExtraScores : Type.
Variable normal_entry : RNGKey -> list nat -> nat -> Q.

Local Abbreviation Emitter := (VanillaESEmitter.Emitter RNGKey OptState ExtraScores).

(** X10.  The samples that are evaluated: for a parent leaf of one row
    and a perturbation leaf of [N] rows, row [i] of the samples is the
    parent plus [sample_sigma] times row [i] of the perturbation, entry
    by entry; the parent row is replicated, never evaluated as it is. *)
Theorem samples_are_parent_plus_scaled_noise :
  forall (self : Emitter) (parent sample_noise : Genotype)
         (l : nat) (d : ndarray) (tail : list nat),
    (l < length parent)%nat ->
    (l < length sample_noise)%nat ->
    shape (nth l parent d) = 1%nat :: tail ->
    length (data (nth l parent d)) = prod_list tail ->
    shape (nth l sample_noise d)
      = VanillaESEmitter.total_sample_number self :: tail ->
    let samples := VanillaESEmitter.apply_noise self parent sample_noise in
    shape (nth l samples d) = VanillaESEmitter.total_sample_number self :: tail /\
    forall i, (i < VanillaESEmitter.total_sample_number self)%nat ->
      nth i (rows (nth l samples d)) []
        = map2 (fun mean noise =>
                  (mean + sample_sigma (VanillaESEmitter._config self) * noise)%float)
               (data (nth l parent d))
               (nth i (rows (nth l sample_noise d)) []).
Proof.
  intros self parent sample_noise l d tail Hl Hl' Hsx Hlx Hse samples.
  set (N := VanillaESEmitter.total_sample_number self) in *.
  set (f := fun mean noise =>
              (mean + sample_sigma (VanillaESEmitter._config self) * noise)%float).
  set (x := nth l parent d) in *. set (e := nth l sample_noise d) in *.
  assert (Hleaf : nth l samples d = zip_array f (repeat_axis0 x N) e).
  { unfold samples, VanillaESEmitter.apply_noise. fold N. fold f.
    rewrite (nth_map2 (zip_array f) _ _ (repeat_axis0 d N) d d)
      by (rewrite ?length_map; assumption).
    rewrite (map_nth (fun x => repeat_axis0 x N)). reflexivity. }
  rewrite Hleaf.
  assert (Hrx : rows x = [data x]).
  { unfold rows, leading_dim, row_size. rewrite Hsx; simpl.
    rewrite <- Hlx, firstn_all. reflexivity. }
  assert (Hshape : shape (zip_array f (repeat_axis0 x N) e) = N :: tail).
  { simpl. unfold leading_dim. rewrite Hsx; simpl. rewrite Nat.add_0_r. reflexivity. }
  split; [exact Hshape|].
  intros i Hi.
  unfold rows at 1, leading_dim, row_size. rewrite Hshape. simpl hd. simpl tl.
  simpl data. rewrite Hrx. simpl flat_map. rewrite app_nil_r, <- Hlx.
  rewrite chunks_replicated.
  rewrite (nth_indep _ [] (map2 f (data x) []))
    by (rewrite length_map, chunks_length; exact Hi).
  rewrite (map_nth (map2 f (data x))).
  unfold rows, leading_dim, row_size. rewrite Hse, Hlx. reflexivity.
Qed.

(** X11.  Under mirroring the perturbation always has an even number of
    rows, [2 * (N / 2)] per parent row: with an odd [sample_number] [N]
    it has [b * (N - 1)] rows, one less per parent row than the [b * N]
    replicated copies of the parent it is added to. *)
Theorem mirrored_noise_rows_with_odd_sample_number :
  forall (self : Emitter) (parent : Genotype) (subkey : RNGKey)
         (l : nat) (d : ndarray),
    sample_mirror (VanillaESEmitter._config self) = true ->
    Nat.Odd (VanillaESEmitter.total_sample_number self) ->
    (l < length parent)%nat ->
    let N := VanillaESEmitter.total_sample_number self in
    let b := leading_dim (nth l parent d) in
    let sample_noise :=
      fst (VanillaESEmitter.sample_noises normal_entry self parent subkey) in
    leading_dim (nth l sample_noise d) = (b * (N - 1))%nat /\
    leading_dim (repeat_axis0 (nth l parent d) N) = (b * N)%nat.
Proof.
  intros self parent subkey l d Hm [h Hh] Hl N b sample_noise.
  unfold sample_noise, VanillaESEmitter.sample_noises.
  rewrite Hm; cbv zeta; cbn [fst snd]. fold N.
  assert (Hhalf : (N / 2 = h)%nat).
  { unfold N; rewrite Hh. rewrite Nat.add_comm, Nat.mul_comm.
    rewrite Nat.div_add by lia. reflexivity. }
  split; [|reflexivity].
  set (half := fun x : ndarray =>
         VanillaESEmitter.random_normal normal_entry subkey
           (shape (repeat_axis0 x (N / 2)))).
  rewrite (nth_indep _ d (VanillaESEmitter.mirror (half d)))
    by (rewrite !length_map; exact Hl).
  rewrite !map_nth.
  assert (H1 : forall y, leading_dim (VanillaESEmitter.mirror y)
                         = (leading_dim y * 2)%nat) by reflexivity.
  assert (H2 : forall y, leading_dim (half y)
                         = (leading_dim y * (N / 2))%nat) by reflexivity.
  rewrite H1, H2. fold b.
  rewrite Hhalf. unfold N. rewrite Hh. lia.
Qed.

End SamplingMoreFacts.

Lemma samples_are_parent_plus_scaled_noise_witness :
  let noise := [mk_ndarray [4; 2]%nat (Samples.vec [1; -1; -1; 1; 2; 0; -2; 0]%Z)] in
  nth 2 (rows (nth 0 (VanillaESEmitter.apply_noise Samples.emitter
                        Samples.parent noise) (mk_ndarray [] []))) []
  = [(Fin 0 + Fin (1 # 10) * Fin 2)%float; (Fin 0 + Fin (1 # 10) * Fin 0)%float].
Proof.
  intros noise.
  destruct (@samples_are_parent_plus_scaled_noise nat unit unit Samples.emitter
              Samples.parent noise 0%nat (mk_ndarray [] []) [2%nat])
    as [_ H].
  - simpl; lia.
  - simpl; lia.
  - reflexivity.
  - reflexivity.
  - reflexivity.
  - exact (H 2%nat ltac:(vm_compute; lia)).
Defined.

Lemma mirrored_noise_rows_with_odd_sample_number_witness :
  let odd :=
    VanillaESEmitter.__init__ Samples.descent Samples.descent
      {| nses_emitter := false;
         sample_number := 5;
         sample_sigma := Fin (1 # 10);
         sample_mirror := true;
         sample_rank_norm := true;
         adam_optimizer := false;
         learning_rate := Fin (1 # 100);
         l2_coefficient := Fin (2 # 100);
         novelty_nearest_neighbors := 2 |}
      Samples.scoring 5 2 in
  leading_dim
    (nth 0 (fst (VanillaESEmitter.sample_noises Samples.normal odd
                   Samples.parent 13%nat)) (mk_ndarray [] []))
  = 4%nat.
Proof.
  intros odd.
  destruct (@mirrored_noise_rows_with_odd_sample_number nat unit unit
              Samples.normal odd Samples.parent 13%nat 0%nat (mk_ndarray [] []))
    as [H _].
  - reflexivity.
  - exists 2%nat; reflexivity.
  - simpl; lia.
  - exact H.
Defined.
